(** * Ascon-AEAD128 reference implementation (src/ascon128.py)

    Shallow embedding of the Python reference.  Python integers are [Z]
    (their [&], [|], [^], [~], [<<], [>>] are [Z.land], [Z.lor], [Z.lxor],
    [Z.lnot], [Z.shiftl], [Z.shiftr], which agree with Python on every
    integer, negative ones included).  Python bitstrings (strings over
    ['0'], ['1']) are lists of booleans, most significant bit first.  A
    Python [bytes] object is the list of its integer values (what iterating
    over it yields), each in 0..255: see [is_bytes].
    Operations that can raise in Python ([int(s, 2)] on an empty string,
    list indexing out of range, [int.to_bytes] overflow) return [option]. *)

From Stdlib Require Import ZArith List Bool Lia.
From Stdlib Require Ascii.
Import ListNotations.
Open Scope Z_scope.

Notation "x <- a ;; b" :=
  (match a with Some x => b | None => None end)
  (at level 60, right associativity).
Notation "' p <- a ;; b" :=
  (match a with Some p => b | None => None end)
  (at level 60, p pattern, right associativity).

(** ** Python helpers *)

(** A Python bitstring. *)
Definition bits := list bool.

(** A Python [bytes] object, and the range of its elements. *)
Definition bytes := list Z.
Definition is_bytes (b : bytes) : Prop := Forall (fun x => 0 <= x < 256) b.

(** [lst[i]] on a Python list: negative indices count from the end, any
    other index out of range raises [IndexError]. *)
Definition py_index {A} (l : list A) (i : Z) : option A :=
  let n := Z.of_nat (length l) in
  if (0 <=? i) && (i <? n) then nth_error l (Z.to_nat i)
  else if (- n <=? i) && (i <? 0) then nth_error l (Z.to_nat (n + i))
  else None.

(** [int(s, 2)]: a [ValueError] on the empty string. *)
Definition py_int2 (s : bits) : option Z :=
  match s with
  | [] => None
  | _ => Some (fold_left (fun acc b => 2 * acc + Z.b2z b) s 0)
  end.

(** [x.to_bytes(n, "big")]: [OverflowError] unless [0 <= x < 256^n]. *)
Definition to_bytes_big (x : Z) (n : nat) : option bytes :=
  if (0 <=? x) && (x <? 2 ^ (8 * Z.of_nat n)) then
    Some (map (fun i => Z.land (Z.shiftr x (8 * (Z.of_nat n - 1 - Z.of_nat i))) 255)
              (seq 0 n))
  else None.

(** [int.from_bytes(b, "big")], used by the KAT harness
    (src/test_ascon_kats.py) to turn the key and nonce into integers. *)
Definition int_from_bytes_big (b : bytes) : Z :=
  fold_left (fun acc x => acc * 256 + x) b 0.

(** ** Constants *)

Definition MASK64 : Z := Z.shiftl 1 64 - 1.

Definition CONST : list Z :=
  [ 0x3C; 0x2D; 0x1E; 0x0F; 0xF0; 0xE1; 0xD2; 0xC3;
    0xB4; 0xA5; 0x96; 0x87; 0x78; 0x69; 0x5A; 0x4B ].

(** ** State: the Python list [[S0, S1, S2, S3, S4]] *)

Record state := mkState { s0 : Z; s1 : Z; s2 : Z; s3 : Z; s4 : Z }.

(** [State[j]] for [j] in [range(5)]. *)
Definition get (S : state) (j : nat) : Z :=
  match j with
  | O => s0 S | 1%nat => s1 S | 2%nat => s2 S | 3%nat => s3 S | _ => s4 S
  end.

(** [State[j] = v] for [j] in [range(5)]. *)
Definition set (S : state) (j : nat) (v : Z) : state :=
  match j with
  | O => mkState v (s1 S) (s2 S) (s3 S) (s4 S)
  | 1%nat => mkState (s0 S) v (s2 S) (s3 S) (s4 S)
  | 2%nat => mkState (s0 S) (s1 S) v (s3 S) (s4 S)
  | 3%nat => mkState (s0 S) (s1 S) (s2 S) v (s4 S)
  | _ => mkState (s0 S) (s1 S) (s2 S) (s3 S) v
  end.

(** ** Permutation *)

Definition get_round_constant (rnd i : Z) : option Z :=
  py_index CONST (16 - rnd + i).

Definition s_box_compute (X : list Z) : list Z :=
  let x k := nth k X 0 in
  let result :=
    [ Z.lxor (Z.lxor (Z.lxor (Z.lxor (Z.lxor (Z.lxor
        (Z.land (x 4%nat) (x 1%nat)) (x 3%nat)) (Z.land (x 2%nat) (x 1%nat)))
        (x 2%nat)) (Z.land (x 1%nat) (x 0%nat))) (x 1%nat)) (x 0%nat);
      Z.lxor (Z.lxor (Z.lxor (Z.lxor (Z.lxor (Z.lxor (Z.lxor
        (x 4%nat) (Z.land (x 3%nat) (x 2%nat))) (Z.land (x 3%nat) (x 1%nat)))
        (x 3%nat)) (Z.land (x 2%nat) (x 1%nat))) (x 2%nat)) (x 1%nat)) (x 0%nat);
      Z.lxor (Z.lxor (Z.lxor (Z.lxor
        (Z.land (x 4%nat) (x 3%nat)) (x 4%nat)) (x 2%nat)) (x 1%nat)) 1;
      Z.lxor (Z.lxor (Z.lxor (Z.lxor (Z.lxor (Z.lxor
        (Z.land (x 4%nat) (x 0%nat)) (x 4%nat)) (Z.land (x 3%nat) (x 0%nat)))
        (x 3%nat)) (x 2%nat)) (x 1%nat)) (x 0%nat);
      Z.lxor (Z.lxor (Z.lxor (Z.lxor
        (Z.land (x 4%nat) (x 1%nat)) (x 4%nat)) (x 3%nat))
        (Z.land (x 1%nat) (x 0%nat))) (x 1%nat) ] in
  map (fun b => Z.land b 1) result.

(** One column [k] of the substitution layer. *)
Definition sbox_column (S : state) (k : Z) : state :=
  let S_box_input := map (fun j => Z.land (Z.shiftr (get S j) k) 1) (seq 0 5) in
  let S_box_output := s_box_compute S_box_input in
  fold_left
    (fun S j =>
       set S j (Z.lor (Z.land (get S j) (Z.lnot (Z.shiftl 1 k)))
                      (Z.shiftl (Z.land (nth j S_box_output 0) 1) k)))
    (seq 0 5) S.

Definition sbox_layer (S : state) : state :=
  fold_left sbox_column (map Z.of_nat (seq 0 64)) S.

Definition rotr (val r : Z) : Z :=
  let r := r mod 64 in
  Z.land (Z.lor (Z.shiftr val r) (Z.land (Z.shiftl val (64 - r)) MASK64)) MASK64.

Definition linear_diffusion_layer (S : state) : state :=
  let '(mkState x0 x1 x2 x3 x4) := S in
  mkState
    (Z.land (Z.lxor (Z.lxor x0 (rotr x0 19)) (rotr x0 28)) MASK64)
    (Z.land (Z.lxor (Z.lxor x1 (rotr x1 61)) (rotr x1 39)) MASK64)
    (Z.land (Z.lxor (Z.lxor x2 (rotr x2 1)) (rotr x2 6)) MASK64)
    (Z.land (Z.lxor (Z.lxor x3 (rotr x3 10)) (rotr x3 17)) MASK64)
    (Z.land (Z.lxor (Z.lxor x4 (rotr x4 7)) (rotr x4 41)) MASK64).

(** Round [i] of an [rounds]-round call, given the looked-up constant. *)
Definition ascon_round (c : Z) (S : state) : state :=
  linear_diffusion_layer (sbox_layer (set S 2 (Z.lxor (get S 2) c))).

(** The loop [for i in is: ...] of [ascon_permutation]. *)
Fixpoint permutation_loop (rounds : Z) (is : list Z) (S : state) : option state :=
  match is with
  | [] => Some S
  | i :: is' =>
      c <- get_round_constant rounds i ;;
      permutation_loop rounds is' (ascon_round c S)
  end.

Definition ascon_permutation (S : state) (rounds : Z) : option state :=
  permutation_loop rounds (map Z.of_nat (seq 0 (Z.to_nat rounds))) S.

(** ** Bitstring helpers *)

(** [pad(X, r)]: append ['1'] then [pad_len - 1] zeros, where
    [pad_len = r - len(X) % r] (Python's ["0" * n] is empty for [n <= 0],
    as is [repeat] after truncated subtraction). *)
Definition pad (X : bits) (r : nat) : bits :=
  let pad_len := (r - (length X mod r))%nat in
  X ++ [true] ++ repeat false (pad_len - 1).

(** [parse_input(X, r)]: [len(X) // r] full blocks, then the remainder
    (possibly empty) as the last block. *)
Definition parse_input {A} (X : list A) (r : nat) : list (list A) :=
  let l := (length X / r)%nat in
  map (fun i => firstn r (skipn (i * r) X)) (seq 0 l) ++ [skipn (l * r) X].

(** [bytes_to_bits(b)]: [f"{byte:08b}"] for every byte, joined. *)
Definition bytes_to_bits (b : bytes) : bits :=
  flat_map (fun byte => map (fun k => Z.testbit byte (7 - Z.of_nat k)) (seq 0 8)) b.

(** The two kinds of inputs [ascon_aead128_enc] accepts for [A] and [P]:
    a [bytes] object (converted with [bytes_to_bits]) or a bitstring. *)
Inductive data := Bytes (b : bytes) | Bitstring (s : bits).

Definition data_bits (d : data) : bits :=
  match d with Bytes b => bytes_to_bits b | Bitstring s => s end.

(** ** Sponge *)

(** [State[0] ^= (x >> 64) & MASK; State[1] ^= x & MASK], the rate update
    written out in [process_associated_data] and [process_plaintext]. *)
Definition xor_rate (S : state) (x : Z) : state :=
  mkState (Z.lxor (s0 S) (Z.land (Z.shiftr x 64) MASK64))
          (Z.lxor (s1 S) (Z.land x MASK64)) (s2 S) (s3 S) (s4 S).

Definition ascon_initialize (K N : Z) : option state :=
  let IV := 0x00001000808C0001 in
  let State := mkState IV (Z.land (Z.shiftr K 64) MASK64) (Z.land K MASK64)
                          (Z.land (Z.shiftr N 64) MASK64) (Z.land N MASK64) in
  State <- ascon_permutation State 12 ;;
  Some (mkState (s0 State) (s1 State) (s2 State)
                (Z.lxor (s3 State) (Z.land (Z.shiftr K 64) MASK64))
                (Z.lxor (s4 State) (Z.land K MASK64))).

(** The absorption and encryption phases, over the permutation they call,
    so that the data flow between permutation calls can be studied on its
    own; the concrete functions below instantiate it with
    [ascon_permutation]. *)
Module Sponge.
Section WithPermutation.
Variable permute : state -> Z -> option state.

(** [for block in A_blocks: ...] of [process_associated_data]. *)
Fixpoint ad_loop (blocks : list bits) (State : state) : option state :=
  match blocks with
  | [] => Some State
  | block :: rest =>
      block_int <- py_int2 block ;;
      State <- permute (xor_rate State block_int) 8 ;;
      ad_loop rest State
  end.

Definition process_associated_data (State : state) (A : bits) : option state :=
  match A with
  | [] => Some (set State 4 (Z.lxor (get State 4) 1))
  | _ =>
      let A_blocks := parse_input A 128 in
      let A_blocks := removelast A_blocks ++ [pad (last A_blocks []) 128] in
      State <- ad_loop A_blocks State ;;
      Some (set State 4 (Z.lxor (get State 4) 1))
  end.

(** [for block in P_blocks[:-1]: ...] of [process_plaintext]; the emitted
    ciphertext blocks are accumulated in order. *)
Fixpoint pt_loop (blocks : list bits) (State : state) (C : list bytes)
  : option (state * list bytes) :=
  match blocks with
  | [] => Some (State, C)
  | block :: rest =>
      block_int <- py_int2 block ;;
      let State := xor_rate State block_int in
      ct <- to_bytes_big (Z.lor (Z.shiftl (s0 State) 64) (s1 State)) 16 ;;
      State <- permute State 8 ;;
      pt_loop rest State (C ++ [ct])
  end.

Definition process_plaintext (State : state) (P : bits)
  : option (state * list bytes) :=
  let P_blocks := parse_input P 128 in
  let l := length (last P_blocks []) in
  '(State, C) <- pt_loop (removelast P_blocks) State [] ;;
  let last_bits := last P_blocks [] in
  last_block_int <- py_int2 (pad last_bits 128) ;;
  let State := xor_rate State last_block_int in
  if (0 <? l)%nat then
    ct_bytes_full <- to_bytes_big (Z.lor (Z.shiftl (s0 State) 64) (s1 State)) 16 ;;
    Some (State, C ++ [firstn (l / 8) ct_bytes_full])
  else Some (State, C).

End WithPermutation.
End Sponge.

Definition process_associated_data := Sponge.process_associated_data ascon_permutation.
Definition process_plaintext := Sponge.process_plaintext ascon_permutation.

Definition finalize (State : state) (K : Z) : option bytes :=
  let State := mkState (s0 State) (s1 State)
                 (Z.lxor (s2 State) (Z.land (Z.shiftr K 64) MASK64))
                 (Z.lxor (s3 State) (Z.land K MASK64)) (s4 State) in
  State <- ascon_permutation State 12 ;;
  let T0 := Z.lxor (s3 State) (Z.land (Z.shiftr K 64) MASK64) in
  let T1 := Z.lxor (s4 State) (Z.land K MASK64) in
  to_bytes_big (Z.lor (Z.shiftl T0 64) T1) 16.

Definition ascon_aead128_enc (K N : Z) (A P : data)
  : option (list bytes * bytes) :=
  let A_bits := data_bits A in
  let P_bits := data_bits P in
  State <- ascon_initialize K N ;;
  State <- process_associated_data State A_bits ;;
  '(State, C) <- process_plaintext State P_bits ;;
  T <- finalize State K ;;
  Some (C, T).

(** ** Decryption *)

(** Modelled from the spec: the bytewise XOR [bytes(a ^ b for a, b in zip(x, y))]
    used by decryption. *)
Fixpoint xor_bytes (x y : bytes) : bytes :=
  match x, y with
  | a :: x', b :: y' => Z.lxor a b :: xor_bytes x' y'
  | _, _ => []
  end.

(** Modelled from the spec: the outcomes of Decrypt-and-verify. *)
Inductive decrypt_result :=
| Ok (pt : bytes)
| AuthenticationFailure
| InputSizeError.

(** Modelled from the spec (section 4.3, Decrypt-and-verify), which
    src/ascon128.py lacks: the dual of [ascon_aead128_enc], in the same
    conventions.  Each full ciphertext block is XORed with the rate to
    recover the plaintext block, which is XORed into the rate exactly as
    encryption does (leaving the ciphertext block in the rate); the last,
    partial block is recovered the same way and its padded plaintext is
    absorbed; the tag is re-derived by [finalize] and compared with the
    supplied one, and plaintext is released only on a match. *)
Fixpoint ct_loop (blocks : list bytes) (State : state) (M : list bytes)
  : option (state * list bytes) :=
  match blocks with
  | [] => Some (State, M)
  | c :: rest =>
      let p_int := Z.lxor (Z.lor (Z.shiftl (s0 State) 64) (s1 State))
                          (int_from_bytes_big c) in
      p <- to_bytes_big p_int 16 ;;
      State <- ascon_permutation (xor_rate State p_int) 8 ;;
      ct_loop rest State (M ++ [p])
  end.

(** Modelled from the spec: ciphertext processing of Decrypt-and-verify. *)
Definition process_ciphertext (State : state) (Cb : bytes)
  : option (state * list bytes) :=
  let C_blocks := parse_input Cb 16 in
  '(State, M) <- ct_loop (removelast C_blocks) State [] ;;
  let c_last := last C_blocks [] in
  rate <- to_bytes_big (Z.lor (Z.shiftl (s0 State) 64) (s1 State)) 16 ;;
  let p_last := xor_bytes rate c_last in
  last_block_int <- py_int2 (pad (bytes_to_bits p_last) 128) ;;
  Some (xor_rate State last_block_int, M ++ [p_last]).

(** Modelled from the spec: Decrypt-and-verify(Key, Nonce, AD, CT, Tag). *)
Definition ascon_aead128_dec (K N : Z) (A : data) (Cb T : bytes)
  : option decrypt_result :=
  if negb (length T =? 16)%nat then Some InputSizeError else
  State <- ascon_initialize K N ;;
  State <- process_associated_data State (data_bits A) ;;
  '(State, M) <- process_ciphertext State Cb ;;
  T' <- finalize State K ;;
  if list_eq_dec Z.eq_dec T' T then Some (Ok (concat M))
  else Some AuthenticationFailure.

(** ** The spec's little-endian instantiation *)

(** Modelled from the spec (sections 3 and 4.2): Ascon-AEAD128 as the spec
    words it, with little-endian loading and storing of every 8-byte half,
    byte padding [0x01 00 .. 00] and domain separation [S4 ^= 1 << 63].
    It is the reference the code's byte and bit conventions are compared
    with. *)
Module SpecLE.

Definition load_le (b : bytes) : Z := fold_right (fun x acc => acc * 256 + x) 0 b.

Definition store_le (x : Z) : bytes :=
  map (fun i => Z.land (Z.shiftr x (8 * Z.of_nat i)) 255) (seq 0 8).

Definition pad_bytes (X : bytes) : bytes :=
  X ++ [0x01] ++ repeat 0 (15 - length X mod 16).

Definition blocks16 (X : bytes) : list bytes :=
  map (fun i => firstn 16 (skipn (16 * i) X)) (seq 0 (length X / 16)).

Definition absorb (St : state) (blk : bytes) : state :=
  mkState (Z.lxor (s0 St) (load_le (firstn 8 blk)))
          (Z.lxor (s1 St) (load_le (skipn 8 blk))) (s2 St) (s3 St) (s4 St).

Definition rate_bytes (St : state) : bytes := store_le (s0 St) ++ store_le (s1 St).

Definition initialize (key nonce : bytes) : option state :=
  let K0 := load_le (firstn 8 key) in
  let K1 := load_le (skipn 8 key) in
  St <- ascon_permutation
         (mkState 0x00001000808C0001 K0 K1
                  (load_le (firstn 8 nonce)) (load_le (skipn 8 nonce))) 12 ;;
  Some (mkState (s0 St) (s1 St) (s2 St) (Z.lxor (s3 St) K0) (Z.lxor (s4 St) K1)).

Fixpoint absorb_blocks (blks : list bytes) (St : state) : option state :=
  match blks with
  | [] => Some St
  | b :: rest => St <- ascon_permutation (absorb St b) 8 ;; absorb_blocks rest St
  end.

Definition process_associated_data (St : state) (AD : bytes) : option state :=
  St <- (match AD with [] => Some St | _ => absorb_blocks (blocks16 (pad_bytes AD)) St end) ;;
  Some (mkState (s0 St) (s1 St) (s2 St) (s3 St) (Z.lxor (s4 St) (Z.shiftl 1 63))).

Fixpoint encrypt_blocks (blks : list bytes) (St : state) (C : bytes)
  : option (state * bytes) :=
  match blks with
  | [] => Some (St, C)
  | [b] => let St := absorb St b in Some (St, C)
  | b :: rest =>
      let St := absorb St b in
      St' <- ascon_permutation St 8 ;;
      encrypt_blocks rest St' (C ++ rate_bytes St)
  end.

Definition process_plaintext (St : state) (PT : bytes) : option (state * bytes) :=
  '(St, C) <- encrypt_blocks (blocks16 (pad_bytes PT)) St [] ;;
  Some (St, C ++ firstn (length PT mod 16) (rate_bytes St)).

Definition finalize (St : state) (key : bytes) : option bytes :=
  let K0 := load_le (firstn 8 key) in
  let K1 := load_le (skipn 8 key) in
  St <- ascon_permutation
          (mkState (s0 St) (s1 St) (Z.lxor (s2 St) K0) (Z.lxor (s3 St) K1) (s4 St)) 12 ;;
  Some (store_le (Z.lxor (s3 St) K0) ++ store_le (Z.lxor (s4 St) K1)).

Definition encrypt (key nonce AD PT : bytes) : option (bytes * bytes) :=
  St <- initialize key nonce ;;
  St <- process_associated_data St AD ;;
  '(St, C) <- process_plaintext St PT ;;
  T <- finalize St key ;;
  Some (C, T).

End SpecLE.

(** ** Auxiliary definitions for the statements *)

(** [rounds] applications of the round function, the round with index [i]
    adding the constant [c i]. *)
Fixpoint rounds_with (c : Z -> Z) (is : list Z) (S : state) : state :=
  match is with
  | [] => S
  | i :: is' => rounds_with c is' (ascon_round (c i) S)
  end.

(** Every state word is a 64-bit unsigned value. *)
Definition wf (S : state) : Prop :=
  0 <= s0 S < 2 ^ 64 /\ 0 <= s1 S < 2 ^ 64 /\ 0 <= s2 S < 2 ^ 64 /\
  0 <= s3 S < 2 ^ 64 /\ 0 <= s4 S < 2 ^ 64.

(** The 128-bit rate [S0 || S1] as one integer. *)
Definition rate (S : state) : Z := Z.lor (Z.shiftl (s0 S) 64) (s1 S).

Definition zero_state : state := mkState 0 0 0 0 0.

(** The payload of [to_bytes_big x n]. *)
Definition be_bytes (n : nat) (x : Z) : bytes :=
  map (fun i => Z.land (Z.shiftr x (8 * (Z.of_nat n - 1 - Z.of_nat i))) 255) (seq 0 n).

(** [f"{byte:08b}"] as a list of booleans. *)
Definition byte_bits (x : Z) : bits := map (fun k => Z.testbit x (7 - Z.of_nat k)) (seq 0 8).

(** The step of [int(s, 2)]. *)
Definition bin_step (acc : Z) (b : bool) : Z := 2 * acc + Z.b2z b.

(** The capacity words [S2], [S3], [S4]. *)
Definition capacity (S : state) : Z * Z * Z := (s2 S, s3 S, s4 S).

(** A decision procedure for [is_bytes]. *)
Definition is_bytesb (b : bytes) : bool := forallb (fun x => (0 <=? x) && (x <? 256)) b.

(** The key and nonce of the first known-answer test (Count = 1 of the
    Ascon-AEAD128 KAT file): bytes 00..0F and 10..1F. *)
Definition kat_key_bytes : bytes := map Z.of_nat (seq 0 16).
Definition kat_nonce_bytes : bytes := map Z.of_nat (seq 16 16).

(** ** The remaining helpers of src/ascon128.py *)

(** [parse_bytes(X, r)]: [parse_input(bytes_to_bits(X), r)]. *)
Definition parse_bytes (X : bytes) (r : nat) : list bits :=
  let bitstring := bytes_to_bits X in
  parse_input bitstring r.

(** The number of ones among the binary digits of a positive number. *)
Fixpoint pos_bit_count (p : positive) : nat :=
  match p with
  | xH => 1
  | xO q => pos_bit_count q
  | xI q => S (pos_bit_count q)
  end.

(** [n.bit_count()]: the number of ones in the binary representation of
    [abs(n)]. *)
Definition int_bit_count (n : Z) : Z :=
  match n with Z0 => 0 | Zpos p | Zneg p => Z.of_nat (pos_bit_count p) end.

(** [n.bit_length()]: the number of binary digits of [abs(n)], [0] for [0]. *)
Definition int_bit_length (n : Z) : Z :=
  match n with Z0 => 0 | Zpos p | Zneg p => Zpos (Pos.size p) end.

Definition count_set_bits (n : Z) : Z :=
  let count := int_bit_count n in
  count.

Definition count_total_bits (n : Z) : Z :=
  if n =? 0 then 1 else
  let total_bits := int_bit_length n in
  total_bits.

Definition int128_to_bytes (i : Z) : option bytes := to_bytes_big i 16.

(** ** The known-answer-test harness (src/test_ascon_kats.py) *)

(** A Python [str] of ASCII characters (the KAT file is ASCII text). *)
Definition str := list Ascii.ascii.

(** [a == b] on strings. *)
Definition str_eqb (a b : str) : bool :=
  if list_eq_dec Ascii.ascii_dec a b then true else false.

(** The value of a hexadecimal digit as [binascii.unhexlify] reads it: digits
    and letters [a-f], [A-F]. *)
Definition hex_digit_value (c : Ascii.ascii) : option Z :=
  let n := Z.of_nat (Ascii.nat_of_ascii c) in
  if (48 <=? n) && (n <=? 57) then Some (n - 48)
  else if (97 <=? n) && (n <=? 102) then Some (n - 87)
  else if (65 <=? n) && (n <=? 70) then Some (n - 55)
  else None.

(** [binascii.unhexlify(s)]: one byte per pair of digits, [binascii.Error] on
    an odd length or a non-hexadecimal digit. *)
Fixpoint unhexlify (s : str) : option bytes :=
  match s with
  | [] => Some []
  | [_] => None
  | hi :: lo :: rest =>
      h <- hex_digit_value hi ;;
      l <- hex_digit_value lo ;;
      r <- unhexlify rest ;;
      Some (16 * h + l :: r)
  end.

Definition hex_to_bytes (x : str) : option bytes :=
  match x with
  | [] => Some []
  | _ => unhexlify x
  end.

(** The lower-case hexadecimal digit of [n] in [0..15]. *)
Definition hex_char (n : Z) : Ascii.ascii :=
  Ascii.ascii_of_nat (Z.to_nat (if n <? 10 then 48 + n else 87 + n)).

(** [b.hex()]: two lower-case digits per byte, high nibble first. *)
Definition bytes_hex (b : bytes) : str :=
  flat_map (fun x => [hex_char (Z.shiftr x 4); hex_char (Z.land x 15)]) b.

(** [s.lower()] on ASCII text. *)
Definition py_lower (s : str) : str :=
  map (fun c => let n := Ascii.nat_of_ascii c in
                if (65 <=? n)%nat && (n <=? 90)%nat then Ascii.ascii_of_nat (n + 32) else c) s.

(** A bound of the slices [s[i:]] and [s[:i]] resolved against [len(s) = n]:
    a negative bound counts from the end, and bounds are clamped to [0..n]. *)
Definition py_slice_bound (i : Z) (n : nat) : nat :=
  if i <? 0 then Z.to_nat (Z.max 0 (i + Z.of_nat n)) else Nat.min (Z.to_nat i) n.

(** [s[i:]] and [s[:j]]. *)
Definition py_slice_from {A} (s : list A) (i : Z) : list A :=
  skipn (py_slice_bound i (length s)) s.
Definition py_slice_to {A} (s : list A) (j : Z) : list A :=
  firstn (py_slice_bound j (length s)) s.

(** The check of one vector in [run_kats], given what [ascon_aead128_enc]
    returned: the [CT] field, lower-cased, is split into its last 32 hex
    digits (the tag) and the rest (the ciphertext), and each part is compared
    with the hex of the corresponding output. *)
Definition kat_vector_passes (C_blocks : list bytes) (T : bytes) (CT : str) : bool :=
  let ct_full := py_lower CT in
  let tag := py_slice_from ct_full (-32) in
  let ct := py_slice_to ct_full (-32) in
  let C := bytes_hex (concat C_blocks) in
  let T_hex := bytes_hex T in
  str_eqb C ct && str_eqb T_hex tag.

(** ** Word packing of the hardware test bench (src/test/test_aead_only.py) *)

Definition CCW : nat := 32.
Definition CCWD8 : nat := CCW / 8.

(** The input word [bdi] and its byte mask [bdi_valid] that one iteration of
    the loop of [send_data] builds from the bytes
    [d .. min(d + CCWD8, dlen) - 1] of [data_in]. *)
Definition send_data_word (data_in : bytes) (d : nat) : Z * Z :=
  let dlen := length data_in in
  fold_left
    (fun '(bdi, bdi_valid) dd =>
       (Z.lor bdi (Z.shiftl (nth dd data_in 0) (8 * Z.of_nat (dd mod CCWD8))),
        Z.lor bdi_valid (Z.shiftl 1 (Z.of_nat (dd mod CCWD8)))))
    (seq d (Nat.min (d + CCWD8) dlen - d)) (0, 0).

(** The bytes that iteration appends to [data_out] from the output word [bdo]:
    [bdo_bytes = int(bdo).to_bytes(CCWD8, "big")], then
    [bdo_bytes[CCWD8 - 1 - dd]] for every [dd] enabled in [bdi_valid]. *)
Definition send_data_out (bdo bdi_valid : Z) : option bytes :=
  bdo_bytes <- to_bytes_big bdo CCWD8 ;;
  Some (flat_map (fun dd => if negb (Z.land bdi_valid (Z.shiftl 1 (Z.of_nat dd)) =? 0)
                            then [nth (CCWD8 - 1 - dd) bdo_bytes 0] else [])
                 (seq 0 CCWD8)).

(** A column of the state as [ascon_permutation] reads it: the bits
    [(State[j] >> k) & 1] for [j] in [range(5)]. *)
Definition column (S : state) (k : Z) : list Z :=
  map (fun j => Z.land (Z.shiftr (get S j) k) 1) (seq 0 5).

(** A list of five bits, the input and output of [s_box_compute]. *)
Definition is_column (X : list Z) : Prop :=
  length X = 5%nat /\ Forall (fun b => b = 0 \/ b = 1) X.

(** Auxiliary definitions for the proofs below: the 32 five-bit columns, a
    boolean equality on bit lists, a single-bit update
    [(x & ~(1 << k)) | ((o & 1) << k)] as done in the S-box loop, and one step
    of the packing loop of [send_data] on the chunk [data_in[d:]]. *)
Definition all_columns : list (list Z) :=
  flat_map (fun a => flat_map (fun b => flat_map (fun c => flat_map (fun d =>
    map (fun e => [a; b; c; d; e]) [0; 1]) [0; 1]) [0; 1]) [0; 1]) [0; 1].

Definition list_Z_eqb (a b : list Z) : bool := if list_eq_dec Z.eq_dec a b then true else false.

Definition upd_bit (x k o : Z) : Z :=
  Z.lor (Z.land x (Z.lnot (Z.shiftl 1 k))) (Z.shiftl (Z.land o 1) k).

Definition pack_step (c : bytes) (acc : Z * Z) (i : nat) : Z * Z :=
  let '(bdi, bdi_valid) := acc in
  (Z.lor bdi (Z.shiftl (nth i c 0) (8 * Z.of_nat i)), Z.lor bdi_valid (Z.shiftl 1 (Z.of_nat i))).

(** * Proofs *)

(** ** Permutation: round constants *)

Lemma length_CONST : length CONST = 16%nat.
Proof. reflexivity. Qed.

Lemma get_round_constant_table (rounds i : Z) :
  rounds <= 16 -> 0 <= i < rounds ->
  get_round_constant rounds i = Some (nth (Z.to_nat (16 - rounds + i)) CONST 0).
Proof.
  intros Hr Hi. unfold get_round_constant, py_index. rewrite length_CONST.
  replace ((0 <=? 16 - rounds + i) && (16 - rounds + i <? Z.of_nat 16)) with true
    by (symmetry; apply andb_true_iff; split; [apply Z.leb_le | apply Z.ltb_lt]; lia).
  apply nth_error_nth'. rewrite length_CONST. lia.
Qed.

Lemma in_rounds_range (rounds i : Z) :
  In i (map Z.of_nat (seq 0 (Z.to_nat rounds))) -> 0 <= i < rounds.
Proof.
  intros H. apply in_map_iff in H as [n [<- Hn]]. apply in_seq in Hn. lia.
Qed.

Lemma permutation_loop_table (rounds : Z) (is : list Z) (S : state) :
  rounds <= 16 -> (forall i, In i is -> 0 <= i < rounds) ->
  permutation_loop rounds is S =
  Some (rounds_with (fun i => nth (Z.to_nat (16 - rounds + i)) CONST 0) is S).
Proof.
  revert S. induction is as [|i is IH]; intros S Hr Hin; simpl; [reflexivity|].
  rewrite get_round_constant_table by (auto; apply Hin; left; reflexivity).
  apply IH; auto. intros j Hj. apply Hin. right. exact Hj.
Qed.

Lemma ascon_permutation_table (S : state) (rounds : Z) :
  rounds <= 16 ->
  ascon_permutation S rounds =
  Some (rounds_with (fun i => nth (Z.to_nat (16 - rounds + i)) CONST 0)
                    (map Z.of_nat (seq 0 (Z.to_nat rounds))) S).
Proof.
  intros Hr. unfold ascon_permutation. apply permutation_loop_table; auto.
  apply in_rounds_range.
Qed.

(** ** Word ranges *)

Lemma MASK64_ones : MASK64 = Z.ones 64.
Proof. reflexivity. Qed.

Lemma land_MASK64 (x : Z) : Z.land x MASK64 = x mod 2 ^ 64.
Proof. rewrite MASK64_ones. apply Z.land_ones. lia. Qed.

Lemma range_of_bits (x n : Z) :
  0 <= n -> (forall i, n <= i -> Z.testbit x i = false) -> 0 <= x < 2 ^ n.
Proof.
  intros Hn H. assert (E : x = x mod 2 ^ n).
  { apply Z.bits_inj'. intros i Hi. rewrite Z.testbit_mod_pow2 by lia.
    destruct (Z.ltb_spec i n); simpl; [reflexivity | apply H; lia]. }
  rewrite E. apply Z.mod_pos_bound. lia.
Qed.

Lemma bits_of_range (x n i : Z) :
  0 <= x < 2 ^ n -> n <= i -> Z.testbit x i = false.
Proof.
  intros Hx Hi. destruct (Z.eq_dec x 0) as [->|Hx0]; [apply Z.testbit_0_l|].
  apply Z.bits_above_log2; [lia|].
  assert (Z.log2 x < n); [apply Z.log2_lt_pow2; lia|lia].
Qed.

Lemma range_land_MASK64 (x : Z) : 0 <= Z.land x MASK64 < 2 ^ 64.
Proof. rewrite land_MASK64. apply Z.mod_pos_bound. lia. Qed.

Lemma range_lxor (n a b : Z) :
  0 <= n -> 0 <= a < 2 ^ n -> 0 <= b < 2 ^ n -> 0 <= Z.lxor a b < 2 ^ n.
Proof.
  intros Hn Ha Hb. apply range_of_bits; auto. intros i Hi.
  rewrite Z.lxor_spec, (bits_of_range a n), (bits_of_range b n); auto.
Qed.

Lemma wf_linear_diffusion_layer (S : state) : wf (linear_diffusion_layer S).
Proof.
  destruct S; unfold wf; simpl; repeat split; apply range_land_MASK64.
Qed.

Lemma wf_rounds_with (c : Z -> Z) (is : list Z) (S : state) :
  is <> [] -> wf (rounds_with c is S).
Proof.
  revert S. induction is as [|i is IH]; intros S H; [congruence|].
  destruct is as [|j is'].
  - apply wf_linear_diffusion_layer.
  - apply IH. discriminate.
Qed.

Lemma ascon_permutation_wf (S : state) (rounds : Z) :
  1 <= rounds <= 16 ->
  exists S', ascon_permutation S rounds = Some S' /\ wf S'.
Proof.
  intros Hr. rewrite ascon_permutation_table by lia. eexists; split; [reflexivity|].
  apply wf_rounds_with. destruct (Z.to_nat rounds) eqn:E; [lia|discriminate].
Qed.

(** ** Absorption touches the rate only *)

Section Capacity.
Variable permute : state -> Z -> option state.

Hypothesis permute_capacity :
  forall S r S', permute S r = Some S' -> capacity S' = capacity S.

Lemma xor_rate_capacity (S : state) (x : Z) : capacity (xor_rate S x) = capacity S.
Proof. reflexivity. Qed.

Lemma ad_loop_capacity (blocks : list bits) (S S' : state) :
  Sponge.ad_loop permute blocks S = Some S' -> capacity S' = capacity S.
Proof.
  revert S. induction blocks as [|b bs IH]; intros S H; cbn [Sponge.ad_loop] in H.
  - congruence.
  - destruct (py_int2 b) as [x|]; [|discriminate].
    destruct (permute (xor_rate S x) 8) as [S1|] eqn:E; [|discriminate].
    apply permute_capacity in E. rewrite (IH S1 H), E. reflexivity.
Qed.

Lemma pt_loop_capacity (blocks : list bits) (S S' : state) (C C' : list bytes) :
  Sponge.pt_loop permute blocks S C = Some (S', C') -> capacity S' = capacity S.
Proof.
  revert S C. induction blocks as [|b bs IH]; intros S C H; cbn [Sponge.pt_loop] in H.
  - congruence.
  - destruct (py_int2 b) as [x|]; [|discriminate].
    destruct (to_bytes_big _ 16) as [ct|]; [|discriminate].
    destruct (permute (xor_rate S x) 8) as [S1|] eqn:E; [|discriminate].
    apply permute_capacity in E. rewrite (IH S1 _ H), E. reflexivity.
Qed.

Lemma process_associated_data_capacity (S S' : state) (A : bits) :
  Sponge.process_associated_data permute S A = Some S' ->
  capacity S' = (s2 S, s3 S, Z.lxor (s4 S) 1).
Proof.
  unfold Sponge.process_associated_data. destruct A as [|a A'].
  - intros H. injection H as <-. reflexivity.
  - destruct (Sponge.ad_loop _ _ _) as [S1|] eqn:E; [|discriminate].
    intros H. injection H as <-. apply ad_loop_capacity in E.
    unfold capacity in *. cbn [set get s2 s3 s4]. congruence.
Qed.

Lemma process_plaintext_capacity (S S' : state) (P : bits) (C : list bytes) :
  Sponge.process_plaintext permute S P = Some (S', C) -> capacity S' = capacity S.
Proof.
  unfold Sponge.process_plaintext.
  destruct (Sponge.pt_loop _ _ _ _) as [[S1 C1]|] eqn:E; [|discriminate].
  apply pt_loop_capacity in E.
  destruct (py_int2 _) as [x|]; [|discriminate].
  destruct (0 <? _)%nat.
  - destruct (to_bytes_big _ 16); [|discriminate].
    intros H. injection H as <- _. rewrite xor_rate_capacity. exact E.
  - intros H. injection H as <- _. rewrite xor_rate_capacity. exact E.
Qed.

End Capacity.

(** ** Bytes and bits *)

Lemma to_bytes_big_eq (x : Z) (n : nat) :
  to_bytes_big x n =
  if (0 <=? x) && (x <? 2 ^ (8 * Z.of_nat n)) then Some (be_bytes n x) else None.
Proof. reflexivity. Qed.

Lemma bytes_to_bits_cons (x : Z) (b : bytes) :
  bytes_to_bits (x :: b) = byte_bits x ++ bytes_to_bits b.
Proof. reflexivity. Qed.

Lemma bytes_to_bits_app (a b : bytes) :
  bytes_to_bits (a ++ b) = bytes_to_bits a ++ bytes_to_bits b.
Proof. unfold bytes_to_bits. apply flat_map_app. Qed.

Lemma length_byte_bits (x : Z) : length (byte_bits x) = 8%nat.
Proof. reflexivity. Qed.

Lemma length_bytes_to_bits (b : bytes) : length (bytes_to_bits b) = (8 * length b)%nat.
Proof.
  induction b as [|x b IH]; [reflexivity|].
  rewrite bytes_to_bits_cons, length_app, length_byte_bits, IH. simpl. lia.
Qed.

Lemma firstn_bytes_to_bits (n : nat) (b : bytes) :
  firstn (8 * n) (bytes_to_bits b) = bytes_to_bits (firstn n b).
Proof.
  revert b. induction n as [|n IH]; intros b; [reflexivity|].
  destruct b as [|x b]; [rewrite firstn_nil; reflexivity|].
  replace (8 * S n)%nat with (8 + 8 * n)%nat by lia.
  rewrite bytes_to_bits_cons, firstn_app, length_byte_bits,
    firstn_all2 by (rewrite length_byte_bits; lia).
  replace (8 + 8 * n - 8)%nat with (8 * n)%nat by lia.
  rewrite IH. reflexivity.
Qed.

Lemma skipn_bytes_to_bits (n : nat) (b : bytes) :
  skipn (8 * n) (bytes_to_bits b) = bytes_to_bits (skipn n b).
Proof.
  revert b. induction n as [|n IH]; intros b; [reflexivity|].
  destruct b as [|x b]; [rewrite skipn_nil; reflexivity|].
  replace (8 * S n)%nat with (8 + 8 * n)%nat by lia.
  rewrite bytes_to_bits_cons, skipn_app, length_byte_bits,
    skipn_all2 by (rewrite length_byte_bits; lia).
  replace (8 + 8 * n - 8)%nat with (8 * n)%nat by lia.
  rewrite IH. reflexivity.
Qed.

(** Splitting the bits of a byte string into 128-bit blocks is splitting the
    byte string into 16-byte blocks. *)
Lemma parse_input_bytes_to_bits (P : bytes) :
  parse_input (bytes_to_bits P) 128 = map bytes_to_bits (parse_input P 16).
Proof.
  unfold parse_input. rewrite length_bytes_to_bits, map_app, map_map.
  replace (8 * length P / 128)%nat with (length P / 16)%nat
    by (replace 128%nat with (8 * 16)%nat by reflexivity;
        rewrite Nat.Div0.div_mul_cancel_l; lia).
  f_equal.
  - apply map_ext. intros i.
    replace (i * 128)%nat with (8 * (i * 16))%nat by lia.
    replace 128%nat with (8 * 16)%nat by reflexivity.
    rewrite skipn_bytes_to_bits, firstn_bytes_to_bits. reflexivity.
  - cbn [map]. replace (length P / 16 * 128)%nat with (8 * (length P / 16 * 16))%nat by lia.
    rewrite skipn_bytes_to_bits. reflexivity.
Qed.

Lemma bytes_to_bits_repeat_0 (k : nat) : bytes_to_bits (repeat 0 k) = repeat false (8 * k).
Proof.
  induction k as [|k IH]; [reflexivity|].
  cbn [repeat]. rewrite bytes_to_bits_cons, IH.
  change (byte_bits 0) with (repeat false 8).
  replace (8 * S k)%nat with (8 + 8 * k)%nat by lia. rewrite repeat_app. reflexivity.
Qed.

(** [pad] on the bits of a byte string appends the byte [0x80] and enough
    zero bytes to reach a multiple of 16 bytes. *)
Lemma pad_bytes_to_bits (X : bytes) :
  pad (bytes_to_bits X) 128 =
  bytes_to_bits (X ++ [0x80] ++ repeat 0 (15 - length X mod 16)).
Proof.
  unfold pad. rewrite length_bytes_to_bits, !bytes_to_bits_app, bytes_to_bits_repeat_0.
  replace (8 * length X mod 128)%nat with (8 * (length X mod 16))%nat
    by (replace 128%nat with (8 * 16)%nat by reflexivity;
        rewrite Nat.Div0.mul_mod_distr_l; reflexivity).
  assert (length X mod 16 < 16)%nat by (apply Nat.mod_upper_bound; lia).
  f_equal. change (bytes_to_bits [0x80]) with (true :: repeat false 7).
  cbn [app]. f_equal.
  replace (8 * (15 - length X mod 16))%nat with (128 - 8 * (length X mod 16) - 1 - 7)%nat by lia.
  rewrite <- repeat_app. f_equal. lia.
Qed.

(** ** Integers of bitstrings and byte strings *)

Lemma fold_bin_step_shift (l : bits) (acc : Z) :
  fold_left bin_step l acc = acc * 2 ^ Z.of_nat (length l) + fold_left bin_step l 0.
Proof.
  revert acc. induction l as [|b l IH]; intros acc; cbn [fold_left length].
  - lia.
  - rewrite (IH (bin_step acc b)), (IH (bin_step 0 b)). unfold bin_step.
    rewrite Nat2Z.inj_succ, Z.pow_succ_r by lia. lia.
Qed.

Lemma byte_bits_value_check :
  forallb (fun n => Z.eqb (fold_left bin_step (byte_bits (Z.of_nat n)) 0) (Z.of_nat n))
          (seq 0 256) = true.
Proof. vm_compute. reflexivity. Qed.

Lemma byte_bits_value (x : Z) :
  0 <= x < 256 -> fold_left bin_step (byte_bits x) 0 = x.
Proof.
  intros Hx. pose proof byte_bits_value_check as H.
  rewrite forallb_forall in H. specialize (H (Z.to_nat x)).
  rewrite Z2Nat.id in H by lia. apply Z.eqb_eq, H, in_seq. lia.
Qed.

Lemma fold_bin_step_bytes (b : bytes) (acc : Z) :
  is_bytes b ->
  fold_left bin_step (bytes_to_bits b) acc = fold_left (fun a x => a * 256 + x) b acc.
Proof.
  revert acc. induction b as [|x b IH]; intros acc Hb; [reflexivity|].
  inversion Hb as [|? ? Hx Hb']; subst.
  rewrite bytes_to_bits_cons, fold_left_app, (fold_bin_step_shift (byte_bits x)),
    byte_bits_value by exact Hx.
  cbn [fold_left]. rewrite IH by exact Hb'. reflexivity.
Qed.

Lemma py_int2_bytes (b : bytes) :
  b <> [] -> is_bytes b -> py_int2 (bytes_to_bits b) = Some (int_from_bytes_big b).
Proof.
  intros Hne Hb. unfold py_int2.
  destruct (bytes_to_bits b) as [|c l] eqn:E.
  - apply (f_equal (@length bool)) in E. rewrite length_bytes_to_bits in E.
    destruct b; [congruence | discriminate].
  - rewrite <- E. change (fun acc b0 => 2 * acc + Z.b2z b0) with bin_step.
    rewrite fold_bin_step_bytes by exact Hb. reflexivity.
Qed.

Lemma int_from_bytes_big_app (b : bytes) (y : Z) :
  int_from_bytes_big (b ++ [y]) = int_from_bytes_big b * 256 + y.
Proof. unfold int_from_bytes_big. rewrite fold_left_app. reflexivity. Qed.

Lemma is_bytes_app (a b : bytes) : is_bytes (a ++ b) <-> is_bytes a /\ is_bytes b.
Proof. unfold is_bytes. apply Forall_app. Qed.

Lemma int_from_bytes_big_range (b : bytes) :
  is_bytes b -> 0 <= int_from_bytes_big b < 2 ^ (8 * Z.of_nat (length b)).
Proof.
  induction b as [|y b IH] using rev_ind; intros Hb; [vm_compute; split; congruence|].
  apply is_bytes_app in Hb as [Hb Hy]. inversion Hy; subst.
  rewrite int_from_bytes_big_app, length_app. specialize (IH Hb). cbn [length].
  replace (8 * Z.of_nat (length b + 1)) with (8 * Z.of_nat (length b) + 8) by lia.
  rewrite Z.pow_add_r by lia. change (2 ^ 8) with 256. nia.
Qed.

Lemma length_be_bytes (n : nat) (x : Z) : length (be_bytes n x) = n.
Proof. unfold be_bytes. rewrite length_map, length_seq. reflexivity. Qed.

Lemma be_bytes_S (n : nat) (x : Z) :
  be_bytes (S n) x = be_bytes n (Z.shiftr x 8) ++ [Z.land x 255].
Proof.
  unfold be_bytes. rewrite seq_S, map_app. cbn [map Nat.add]. f_equal.
  - apply map_ext_in. intros i Hi. apply in_seq in Hi.
    rewrite Z.shiftr_shiftr by lia. f_equal. f_equal. lia.
  - f_equal. replace (8 * (Z.of_nat (S n) - 1 - Z.of_nat n)) with 0 by lia.
    rewrite Z.shiftr_0_r. reflexivity.
Qed.

Lemma land_255 (x : Z) : Z.land x 255 = x mod 256.
Proof. change 255 with (Z.ones 8). rewrite Z.land_ones by lia. reflexivity. Qed.

Lemma int_from_be_bytes (n : nat) (x : Z) :
  int_from_bytes_big (be_bytes n x) = x mod 2 ^ (8 * Z.of_nat n).
Proof.
  revert x. induction n as [|n IH]; intros x.
  - simpl. rewrite Z.mod_1_r. reflexivity.
  - rewrite be_bytes_S, int_from_bytes_big_app, IH, land_255, Z.shiftr_div_pow2 by lia.
    replace (8 * Z.of_nat (S n)) with (8 + 8 * Z.of_nat n) by lia.
    rewrite Z.pow_add_r by lia. change (2 ^ 8) with 256.
    rewrite Z.rem_mul_r by lia. lia.
Qed.

Lemma be_bytes_of_int (b : bytes) :
  is_bytes b -> be_bytes (length b) (int_from_bytes_big b) = b.
Proof.
  induction b as [|y b IH] using rev_ind; intros Hb; [reflexivity|].
  apply is_bytes_app in Hb as [Hb Hy]. inversion Hy; subst.
  rewrite length_app, Nat.add_1_r, be_bytes_S, int_from_bytes_big_app,
    land_255, Z.shiftr_div_pow2 by lia.
  change (2 ^ 8) with 256.
  replace ((int_from_bytes_big b * 256 + y) / 256) with (int_from_bytes_big b)
    by (rewrite Z.div_add_l by lia; rewrite Z.div_small by lia; lia).
  replace ((int_from_bytes_big b * 256 + y) mod 256) with y
    by (rewrite Z.add_comm, Z.mod_add by lia; rewrite Z.mod_small by lia; reflexivity).
  rewrite IH by exact Hb. reflexivity.
Qed.

Lemma is_bytes_be_bytes (n : nat) (x : Z) : is_bytes (be_bytes n x).
Proof.
  unfold is_bytes, be_bytes. apply Forall_map, Forall_forall. intros i _.
  rewrite land_255. apply Z.mod_pos_bound. lia.
Qed.

Lemma xor_bytes_app (a a' b b' : bytes) :
  length a = length b -> xor_bytes (a ++ a') (b ++ b') = xor_bytes a b ++ xor_bytes a' b'.
Proof.
  revert b. induction a as [|x a IH]; intros [|y b] H; try discriminate; [reflexivity|].
  cbn. f_equal. apply IH. simpl in H. lia.
Qed.

Lemma land_lxor_distr (x y m : Z) :
  Z.land (Z.lxor x y) m = Z.lxor (Z.land x m) (Z.land y m).
Proof.
  apply Z.bits_inj'. intros i _. rewrite Z.lxor_spec, !Z.land_spec, Z.lxor_spec.
  destruct (Z.testbit x i), (Z.testbit y i), (Z.testbit m i); reflexivity.
Qed.

Lemma be_bytes_lxor (n : nat) (x y : Z) :
  be_bytes n (Z.lxor x y) = xor_bytes (be_bytes n x) (be_bytes n y).
Proof.
  revert x y. induction n as [|n IH]; intros x y; [reflexivity|].
  rewrite !be_bytes_S, xor_bytes_app by (rewrite !length_be_bytes; reflexivity).
  rewrite Z.shiftr_lxor, IH, land_lxor_distr. reflexivity.
Qed.

Lemma xor_bytes_firstn_r (m : nat) (a b : bytes) :
  xor_bytes a (firstn m b) = firstn m (xor_bytes a b).
Proof.
  revert a b. induction m as [|m IH]; intros a b.
  - destruct a; reflexivity.
  - destruct a as [|x a], b as [|y b]; try reflexivity.
    cbn. f_equal. apply IH.
Qed.

(** ** The rate as a 128-bit integer *)

Lemma testbit_rate_word (a b i : Z) :
  0 <= b < 2 ^ 64 -> 0 <= i ->
  Z.testbit (Z.lor (Z.shiftl a 64) b) i =
  if i <? 64 then Z.testbit b i else Z.testbit a (i - 64).
Proof.
  intros Hb Hi. rewrite Z.lor_spec, Z.shiftl_spec by exact Hi.
  destruct (Z.ltb_spec i 64).
  - rewrite Z.testbit_neg_r by lia. reflexivity.
  - rewrite (bits_of_range b 64 i) by (auto; lia). apply orb_false_r.
Qed.

Lemma testbit_land_MASK64 (x i : Z) :
  0 <= i -> Z.testbit (Z.land x MASK64) i = (i <? 64) && Z.testbit x i.
Proof. intros Hi. rewrite land_MASK64, Z.testbit_mod_pow2 by lia. reflexivity. Qed.

Lemma rate_range (S : state) : wf S -> 0 <= rate S < 2 ^ 128.
Proof.
  intros (H0 & H1 & _). unfold rate. apply range_of_bits; [lia|]. intros i Hi.
  rewrite testbit_rate_word by (auto; lia). destruct (Z.ltb_spec i 64); [lia|].
  apply (bits_of_range _ 64); auto; lia.
Qed.

Lemma wf_xor_rate (S : state) (x : Z) : wf S -> wf (xor_rate S x).
Proof.
  intros (H0 & H1 & H2 & H3 & H4). unfold wf, xor_rate; cbn [s0 s1 s2 s3 s4].
  refine (conj _ (conj _ (conj H2 (conj H3 H4))));
    apply range_lxor; auto; try lia; apply range_land_MASK64.
Qed.

Lemma rate_xor_rate (S : state) (p : Z) :
  wf S -> 0 <= p < 2 ^ 128 -> rate (xor_rate S p) = Z.lxor (rate S) p.
Proof.
  intros HS Hp. pose proof (wf_xor_rate S p HS) as HS'.
  destruct HS as (H0 & H1 & _). destruct HS' as (H0' & H1' & _).
  apply Z.bits_inj'. intros i Hi. unfold rate in *.
  rewrite Z.lxor_spec, !testbit_rate_word by auto.
  unfold xor_rate; cbn [s0 s1].
  destruct (Z.ltb_spec i 64).
  - rewrite Z.lxor_spec, testbit_land_MASK64 by lia.
    destruct (Z.ltb_spec i 64); [reflexivity | lia].
  - rewrite Z.lxor_spec, testbit_land_MASK64, Z.shiftr_spec by lia.
    replace (i - 64 + 64) with i by lia.
    destruct (Z.ltb_spec (i - 64) 64); [reflexivity|].
    rewrite (bits_of_range p 128 i) by (auto; lia). reflexivity.
Qed.

Lemma to_bytes_big_rate (S : state) :
  wf S -> to_bytes_big (rate S) 16 = Some (be_bytes 16 (rate S)).
Proof.
  intros HS. pose proof (rate_range S HS). rewrite to_bytes_big_eq.
  replace ((0 <=? rate S) && (rate S <? 2 ^ (8 * Z.of_nat 16))) with true; [reflexivity|].
  symmetry. apply andb_true_iff. split; [apply Z.leb_le | apply Z.ltb_lt]; simpl; lia.
Qed.

(** ** Splitting into blocks *)

Lemma is_bytes_firstn (n : nat) (X : bytes) : is_bytes X -> is_bytes (firstn n X).
Proof. intros H. rewrite <- (firstn_skipn n X) in H. apply is_bytes_app in H. tauto. Qed.

Lemma is_bytes_skipn (n : nat) (X : bytes) : is_bytes X -> is_bytes (skipn n X).
Proof. intros H. rewrite <- (firstn_skipn n X) in H. apply is_bytes_app in H. tauto. Qed.

Lemma parse_input_short {A} (X : list A) (r : nat) :
  (length X < r)%nat -> parse_input X r = [X].
Proof.
  intros H. unfold parse_input. rewrite Nat.div_small by exact H. reflexivity.
Qed.

Lemma parse_input_step {A} (X : list A) (r : nat) :
  (0 < r)%nat -> (r <= length X)%nat ->
  parse_input X r = firstn r X :: parse_input (skipn r X) r.
Proof.
  intros Hr HX. unfold parse_input. rewrite length_skipn.
  replace (length X / r)%nat with (S ((length X - r) / r)).
  2:{ assert (E : length X = (length X - r + 1 * r)%nat) by lia.
       rewrite E at 2. rewrite Nat.div_add by lia. lia. }
  cbn [seq map app]. rewrite skipn_O. f_equal.
  rewrite <- seq_shift, map_map. f_equal.
  - apply map_ext. intros i. rewrite skipn_skipn. f_equal. f_equal. lia.
  - rewrite skipn_skipn. f_equal. f_equal. lia.
Qed.

Lemma parse_input_app {A} (c X : list A) (r : nat) :
  (0 < r)%nat -> length c = r -> parse_input (c ++ X) r = c :: parse_input X r.
Proof.
  intros Hr Hc. rewrite parse_input_step by (auto; rewrite length_app; lia).
  rewrite firstn_app, skipn_app, Hc, Nat.sub_diag, <- Hc, firstn_all, skipn_all.
  cbn [firstn skipn app]. rewrite app_nil_r. reflexivity.
Qed.

Lemma parse_input_concat {A} (cts : list (list A)) (L : list A) (r : nat) :
  (0 < r)%nat -> Forall (fun c => length c = r) cts -> (length L < r)%nat ->
  parse_input (concat cts ++ L) r = cts ++ [L].
Proof.
  intros Hr Hcts HL. induction Hcts as [|c cts Hc _ IH].
  - apply parse_input_short. exact HL.
  - cbn [concat]. rewrite <- app_assoc, parse_input_app by auto. rewrite IH. reflexivity.
Qed.

(** The shape of [parse_input X r]: full blocks, then a short last block,
    which together give back [X]. *)
Lemma parse_input_shape {A} (X : list A) (r : nat) :
  (0 < r)%nat ->
  parse_input X r = removelast (parse_input X r) ++ [last (parse_input X r) []] /\
  Forall (fun c => length c = r) (removelast (parse_input X r)) /\
  (length (last (parse_input X r) []) < r)%nat /\
  concat (parse_input X r) = X.
Proof.
  intros Hr. remember (length X) as n eqn:En. revert X En.
  induction n as [n IH] using lt_wf_ind; intros X En.
  destruct (Nat.lt_ge_cases n r) as [Hlt|Hge].
  - rewrite parse_input_short by lia. cbn. rewrite app_nil_r. repeat split; auto; lia.
  - rewrite parse_input_step by lia.
    destruct (IH (length (skipn r X))) with (X := skipn r X)
      as (E1 & E2 & E3 & E4); [rewrite length_skipn; lia | reflexivity |].
    set (B := parse_input (skipn r X) r) in *.
    assert (HB : B <> []) by (rewrite E1; destruct (removelast B); discriminate).
    destruct B as [|b B']; [congruence|].
    cbn [removelast last concat] in *.
    repeat split.
    + rewrite E1 at 1. reflexivity.
    + constructor; [rewrite length_firstn; lia | exact E2].
    + exact E3.
    + rewrite E4. apply firstn_skipn.
Qed.

(** ** Encryption and decryption of the message blocks *)

Lemma to_bytes_big_16 (p : Z) :
  0 <= p < 2 ^ 128 -> to_bytes_big p 16 = Some (be_bytes 16 p).
Proof.
  intros Hp. rewrite to_bytes_big_eq.
  replace ((0 <=? p) && (p <? 2 ^ (8 * Z.of_nat 16))) with true; [reflexivity|].
  symmetry. apply andb_true_iff. split; [apply Z.leb_le | apply Z.ltb_lt]; simpl; lia.
Qed.

Lemma block_int_range (b : bytes) :
  length b = 16%nat -> is_bytes b -> 0 <= int_from_bytes_big b < 2 ^ 128.
Proof.
  intros Hl Hb. pose proof (int_from_bytes_big_range b Hb) as H.
  rewrite Hl in H. exact H.
Qed.

Lemma be_bytes_16_of_int (b : bytes) :
  length b = 16%nat -> is_bytes b -> be_bytes 16 (int_from_bytes_big b) = b.
Proof. intros Hl Hb. rewrite <- Hl. apply be_bytes_of_int, Hb. Qed.

Lemma lxor_cancel_l (a p : Z) : Z.lxor a (Z.lxor a p) = p.
Proof. rewrite <- Z.lxor_assoc, Z.lxor_nilpotent, Z.lxor_0_l. reflexivity. Qed.

(** Encrypting the full blocks and decrypting the resulting ciphertext
    blocks run through the same states and give back the blocks. *)
Lemma pt_loop_ct_loop (FB : list bytes) (S : state) (C M : list bytes) :
  wf S -> Forall (fun b => length b = 16%nat /\ is_bytes b) FB ->
  exists S' cts,
    Sponge.pt_loop ascon_permutation (map bytes_to_bits FB) S C = Some (S', C ++ cts) /\
    wf S' /\ Forall (fun c => length c = 16%nat) cts /\ length cts = length FB /\
    ct_loop cts S M = Some (S', M ++ FB).
Proof.
  intros HS HFB. revert S C M HS.
  induction HFB as [|b FB [Hl Hb] _ IH]; intros S C M HS.
  - exists S, []. rewrite !app_nil_r. refine (conj eq_refl (conj HS (conj _ (conj eq_refl eq_refl)))).
    constructor.
  - assert (Hne : b <> []) by (intros ->; discriminate).
    pose proof (block_int_range b Hl Hb) as Hp.
    set (p := int_from_bytes_big b) in *.
    pose proof (wf_xor_rate S p HS) as HS1.
    destruct (ascon_permutation_wf (xor_rate S p) 8) as (S2 & E2 & HS2); [lia|].
    destruct (IH S2 (C ++ [be_bytes 16 (rate (xor_rate S p))]) (M ++ [b]) HS2)
      as (S' & cts & E3 & HS' & Hcts & Hlen & E4).
    exists S', (be_bytes 16 (rate (xor_rate S p)) :: cts).
    cbn [map Sponge.pt_loop ct_loop].
    rewrite py_int2_bytes by auto. fold p. fold (rate (xor_rate S p)) (rate S).
    rewrite to_bytes_big_rate by exact HS1. rewrite E2, E3, <- app_assoc.
    refine (conj eq_refl (conj HS' (conj _ (conj _ _)))).
    + constructor; [apply length_be_bytes | exact Hcts].
    + cbn. rewrite Hlen. reflexivity.
    + rewrite int_from_be_bytes.
      rewrite Z.mod_small by (apply rate_range; exact HS1).
      rewrite rate_xor_rate by auto. rewrite lxor_cancel_l.
      rewrite to_bytes_big_16 by exact Hp.
      replace (be_bytes 16 p) with b by (symmetry; apply be_bytes_16_of_int; auto).
      fold p. rewrite E2. rewrite <- app_assoc in E4. exact E4.
Qed.

Lemma parse_input_lengths {A} (X : list A) (r : nat) :
  length (removelast (parse_input X r)) = (length X / r)%nat /\
  length (last (parse_input X r) []) = (length X - length X / r * r)%nat.
Proof.
  unfold parse_input. rewrite removelast_last, last_last, length_map, length_seq, length_skipn.
  split; reflexivity.
Qed.

Lemma is_bytes_pad_block (L : bytes) :
  is_bytes L -> is_bytes (L ++ [0x80] ++ repeat 0 (15 - length L mod 16)).
Proof.
  intros HL. apply is_bytes_app. split; [exact HL|]. constructor; [lia|].
  apply Forall_forall. intros x Hx. apply repeat_spec in Hx. lia.
Qed.

Lemma length_pad_block (L : bytes) :
  (length L < 16)%nat -> length (L ++ [0x80] ++ repeat 0 (15 - length L mod 16)) = 16%nat.
Proof.
  intros HL. rewrite !length_app, repeat_length, Nat.mod_small by exact HL.
  change (length [0x80]) with 1%nat. lia.
Qed.

Lemma firstn_length_app {A} (L R : list A) : firstn (length L) (L ++ R) = L.
Proof. rewrite firstn_app, Nat.sub_diag, firstn_O, app_nil_r, firstn_all. reflexivity. Qed.

(** Processing a byte plaintext: the ciphertext blocks (full blocks, then the
    truncated last block when the length is not a multiple of 16), and their
    decryption, which reaches the same state and gives back the plaintext. *)
Lemma process_plaintext_ciphertext (S : state) (P : bytes) :
  wf S -> is_bytes P ->
  exists S' cts lc M,
    process_plaintext S (bytes_to_bits P) =
      Some (S', cts ++ (if (length P mod 16 =? 0)%nat then [] else [lc])) /\
    wf S' /\ Forall (fun c => length c = 16%nat) cts /\
    length cts = (length P / 16)%nat /\ length lc = (length P mod 16)%nat /\
    process_ciphertext S (concat cts ++ lc) = Some (S', M) /\ concat M = P.
Proof.
  intros HS HP. unfold bits, bytes in *.
  destruct (parse_input_shape P 16) as (E1 & E2 & E3 & E4); [lia|].
  destruct (parse_input_lengths P 16) as (EL1 & EL2).
  set (FB := removelast (parse_input P 16)) in *.
  set (L := last (parse_input P 16) []) in *.
  assert (HmL : length L = (length P mod 16)%nat)
    by (rewrite EL2, Nat.Div0.mod_eq; lia).
  assert (HB : Forall is_bytes (FB ++ [L])).
  { apply Forall_concat. rewrite <- E1, E4. exact HP. }
  apply Forall_app in HB as [HFB HL]. inversion HL as [|? ? HLb _]; subst.
  assert (HFB' : Forall (fun b => length b = 16%nat /\ is_bytes b) FB).
  { apply Forall_forall. intros b Hb. split.
    - rewrite Forall_forall in E2. apply E2, Hb.
    - rewrite Forall_forall in HFB. apply HFB, Hb. }
  destruct (pt_loop_ct_loop FB S [] [] HS HFB')
    as (Sm & cts & Ept & HSm & Hcts & Hlen & Ect).
  set (Lp := L ++ [0x80] ++ repeat 0 (15 - length L mod 16)).
  assert (HLp : length Lp = 16%nat) by (apply length_pad_block; exact E3).
  assert (HLpb : is_bytes Lp) by (apply is_bytes_pad_block; exact HLb).
  assert (HLpne : Lp <> []) by (intros H; rewrite H in HLp; discriminate).
  set (q := int_from_bytes_big Lp).
  pose proof (block_int_range Lp HLp HLpb) as Hq. fold q in Hq.
  pose proof (wf_xor_rate Sm q HSm) as HSf.
  set (m := length L) in *.
  exists (xor_rate Sm q), cts, (firstn m (be_bytes 16 (rate (xor_rate Sm q)))), (FB ++ [L]).
  assert (Hlc : length (firstn m (be_bytes 16 (rate (xor_rate Sm q)))) = m)
    by (rewrite length_firstn, length_be_bytes; lia).
  refine (conj _ (conj HSf (conj Hcts (conj _ (conj _ (conj _ _)))))).
  - unfold process_plaintext, Sponge.process_plaintext.
    rewrite parse_input_bytes_to_bits, E1, map_app. cbn [map].
    rewrite removelast_last, last_last. unfold bits, bytes in *. rewrite Ept. cbn [app].
    rewrite pad_bytes_to_bits, py_int2_bytes by auto.
    change (int_from_bytes_big (L ++ [0x80] ++ repeat 0 (15 - length L mod 16))) with q.
    rewrite length_bytes_to_bits. fold (rate (xor_rate Sm q)).
    rewrite to_bytes_big_rate by exact HSf.
    rewrite <- HmL. fold m.
    destruct m as [|m'] eqn:Em.
    + cbn. rewrite app_nil_r. reflexivity.
    + replace (0 <? 8 * Datatypes.S m')%nat with true by (symmetry; apply Nat.ltb_lt; lia).
      replace (Datatypes.S m' =? 0)%nat with false by reflexivity.
      replace (8 * Datatypes.S m' / 8)%nat with (Datatypes.S m') by (rewrite Nat.mul_comm, Nat.div_mul; lia).
      reflexivity.
  - unfold bits, bytes in *; lia.
  - unfold bits, bytes in *; rewrite ?length_firstn, ?length_be_bytes; lia.
  - unfold process_ciphertext.
    rewrite parse_input_concat by (auto; lia).
    rewrite removelast_last, last_last. unfold bits, bytes in *. rewrite Ect. cbn [app].
    fold (rate Sm). rewrite to_bytes_big_rate by exact HSm.
    rewrite xor_bytes_firstn_r, <- be_bytes_lxor, rate_xor_rate by auto.
    rewrite lxor_cancel_l. unfold q. rewrite be_bytes_16_of_int by auto.
    replace (firstn m Lp) with L by (unfold Lp, m; rewrite firstn_length_app; reflexivity).
    rewrite pad_bytes_to_bits, py_int2_bytes by auto. reflexivity.
  - rewrite <- E1. exact E4.
Qed.

(** ** Every phase succeeds *)

Lemma is_bytesb_spec (b : bytes) : is_bytesb b = true -> is_bytes b.
Proof.
  intros H. unfold is_bytesb in H. apply Forall_forall. intros x Hx.
  rewrite forallb_forall in H. apply H, andb_true_iff in Hx as [H1 H2].
  apply Z.leb_le in H1. apply Z.ltb_lt in H2. lia.
Qed.

Lemma ascon_permutation_some_wf (S S' : state) (rounds : Z) :
  1 <= rounds <= 16 -> ascon_permutation S rounds = Some S' -> wf S'.
Proof.
  intros Hr E. destruct (ascon_permutation_wf S rounds Hr) as [S1 [E1 W]].
  rewrite E1 in E. injection E as <-. exact W.
Qed.

Lemma wf_domain_separation (S : state) : wf S -> wf (set S 4 (Z.lxor (get S 4) 1)).
Proof.
  intros (H0 & H1 & H2 & H3 & H4). unfold wf; cbn [set get s0 s1 s2 s3 s4].
  refine (conj H0 (conj H1 (conj H2 (conj H3 _)))).
  apply range_lxor; [lia | exact H4 | split; [lia | reflexivity]].
Qed.

Lemma ascon_initialize_total (K N : Z) :
  exists S, ascon_initialize K N = Some S /\ wf S.
Proof.
  unfold ascon_initialize. cbv zeta.
  match goal with |- context [ascon_permutation ?X 12] =>
    destruct (ascon_permutation_wf X 12) as [S1 [E W]]; [lia|] end.
  rewrite E. eexists; split; [reflexivity|].
  destruct W as (H0 & H1 & H2 & H3 & H4). unfold wf; cbn [s0 s1 s2 s3 s4].
  refine (conj H0 (conj H1 (conj H2 (conj _ _))));
    apply range_lxor; auto; try lia; apply range_land_MASK64.
Qed.

Lemma py_int2_some (b : bits) : b <> [] -> exists x, py_int2 b = Some x.
Proof. destruct b; [congruence|]. intros _. eexists; reflexivity. Qed.

Lemma pad_not_nil (X : bits) (r : nat) : pad X r <> [].
Proof. unfold pad. destruct X; simpl; discriminate. Qed.

Lemma Forall_length_not_nil {A} (l : list (list A)) (r : nat) :
  (0 < r)%nat -> Forall (fun c => length c = r) l -> Forall (fun c => c <> []) l.
Proof.
  intros Hr H. eapply Forall_impl; [|exact H]. intros c Hc E. subst c. simpl in Hc. lia.
Qed.

Lemma ad_loop_total (blocks : list bits) (S : state) :
  wf S -> Forall (fun b => b <> []) blocks ->
  exists S', Sponge.ad_loop ascon_permutation blocks S = Some S' /\ wf S'.
Proof.
  intros HS Hb. revert S HS.
  induction Hb as [|b bs Hb _ IH]; intros S HS; cbn [Sponge.ad_loop].
  - eexists; split; [reflexivity | exact HS].
  - destruct (py_int2_some b Hb) as [x ->]. lazy beta iota.
    destruct (ascon_permutation_wf (xor_rate S x) 8) as [S1 [E W]]; [lia|].
    rewrite E. lazy beta iota. apply IH. exact W.
Qed.

Lemma process_associated_data_total (S : state) (A : bits) :
  wf S -> exists S', process_associated_data S A = Some S' /\ wf S'.
Proof.
  intros HS. unfold process_associated_data, Sponge.process_associated_data.
  destruct A as [|a A'].
  - eexists; split; [reflexivity | apply wf_domain_separation, HS].
  - cbv zeta.
    destruct (parse_input_shape (a :: A') 128) as (_ & Hf & _ & _); [lia|].
    destruct (ad_loop_total (removelast (parse_input (a :: A') 128) ++
                             [pad (last (parse_input (a :: A') 128) []) 128]) S HS)
      as [S1 [E W]].
    { apply Forall_app. split.
      - eapply Forall_length_not_nil; [|exact Hf]. lia.
      - constructor; [apply pad_not_nil | constructor]. }
    rewrite E. eexists; split; [reflexivity | apply wf_domain_separation, W].
Qed.

Lemma pt_loop_total (blocks : list bits) (S : state) (C : list bytes) :
  wf S -> Forall (fun b => b <> []) blocks ->
  exists S' C', Sponge.pt_loop ascon_permutation blocks S C = Some (S', C') /\ wf S'.
Proof.
  intros HS Hb. revert S C HS.
  induction Hb as [|b bs Hb _ IH]; intros S C HS; cbn [Sponge.pt_loop].
  - eexists _, _; split; [reflexivity | exact HS].
  - destruct (py_int2_some b Hb) as [x ->]. lazy beta iota zeta.
    pose proof (wf_xor_rate S x HS) as HSx.
    fold (rate (xor_rate S x)). rewrite to_bytes_big_rate by exact HSx. lazy beta iota.
    destruct (ascon_permutation_wf (xor_rate S x) 8) as [S1 [E W]]; [lia|].
    rewrite E. lazy beta iota. apply IH. exact W.
Qed.

Lemma process_plaintext_total (S : state) (P : bits) :
  wf S -> exists S' C, process_plaintext S P = Some (S', C) /\ wf S'.
Proof.
  intros HS. unfold process_plaintext, Sponge.process_plaintext. cbv zeta.
  destruct (parse_input_shape P 128) as (_ & Hf & _ & _); [lia|].
  destruct (pt_loop_total (removelast (parse_input P 128)) S [] HS) as [S1 [C1 [E W]]].
  { eapply Forall_length_not_nil; [|exact Hf]. lia. }
  rewrite E. lazy beta iota.
  destruct (py_int2_some (pad (last (parse_input P 128) []) 128) (pad_not_nil _ _)) as [x Ex].
  rewrite Ex. lazy beta iota.
  pose proof (wf_xor_rate S1 x W) as HSx.
  destruct (0 <? _)%nat.
  - fold (rate (xor_rate S1 x)). rewrite to_bytes_big_rate by exact HSx.
    eexists _, _; split; [reflexivity | exact HSx].
  - eexists _, _; split; [reflexivity | exact HSx].
Qed.

(** ** The tag *)

Lemma be_bytes_add (n m : nat) (x : Z) :
  be_bytes (n + m) x = be_bytes n (Z.shiftr x (8 * Z.of_nat m)) ++ be_bytes m x.
Proof.
  revert x. induction m as [|m IH]; intros x.
  - rewrite Nat.add_0_r. change (8 * Z.of_nat 0) with 0. rewrite Z.shiftr_0_r.
    cbn [be_bytes seq map]. rewrite app_nil_r. reflexivity.
  - rewrite Nat.add_succ_r, !be_bytes_S, IH, app_assoc, Z.shiftr_shiftr by lia.
    do 4 f_equal. lia.
Qed.

Lemma be_bytes_mod (n : nat) (x : Z) : be_bytes n (x mod 2 ^ (8 * Z.of_nat n)) = be_bytes n x.
Proof.
  rewrite <- int_from_be_bytes.
  rewrite <- (length_be_bytes n x) at 1. apply be_bytes_of_int, is_bytes_be_bytes.
Qed.

Lemma rate_word_hi (a b : Z) : 0 <= b < 2 ^ 64 -> Z.shiftr (Z.lor (Z.shiftl a 64) b) 64 = a.
Proof.
  intros Hb. apply Z.bits_inj'. intros i Hi.
  rewrite Z.shiftr_spec, testbit_rate_word by (auto; lia).
  destruct (Z.ltb_spec (i + 64) 64); [lia|]. f_equal. lia.
Qed.

Lemma rate_word_lo (a b : Z) : 0 <= b < 2 ^ 64 -> Z.lor (Z.shiftl a 64) b mod 2 ^ 64 = b.
Proof.
  intros Hb. apply Z.bits_inj'. intros i Hi.
  rewrite Z.testbit_mod_pow2 by lia. destruct (Z.ltb_spec i 64); cbn [andb].
  - rewrite testbit_rate_word by auto. destruct (Z.ltb_spec i 64); [reflexivity | lia].
  - symmetry. apply (bits_of_range b 64); auto; lia.
Qed.

Lemma rate_word_range (a b : Z) :
  0 <= a < 2 ^ 64 -> 0 <= b < 2 ^ 64 -> 0 <= Z.lor (Z.shiftl a 64) b < 2 ^ 128.
Proof.
  intros Ha Hb. apply range_of_bits; [lia|]. intros i Hi.
  rewrite testbit_rate_word by (auto; lia). destruct (Z.ltb_spec i 64); [lia|].
  apply (bits_of_range _ 64); auto; lia.
Qed.

Lemma be_bytes_16_words (a b : Z) :
  0 <= b < 2 ^ 64 ->
  be_bytes 16 (Z.lor (Z.shiftl a 64) b) = be_bytes 8 a ++ be_bytes 8 b.
Proof.
  intros Hb. change 16%nat with (8 + 8)%nat. rewrite be_bytes_add.
  change (8 * Z.of_nat 8) with 64. rewrite rate_word_hi by exact Hb.
  f_equal. rewrite <- be_bytes_mod. change (8 * Z.of_nat 8) with 64.
  rewrite rate_word_lo by exact Hb. reflexivity.
Qed.

Lemma finalize_tag (S : state) (K : Z) :
  exists St,
    ascon_permutation
      (mkState (s0 S) (s1 S) (Z.lxor (s2 S) (Z.land (Z.shiftr K 64) MASK64))
               (Z.lxor (s3 S) (Z.land K MASK64)) (s4 S)) 12 = Some St /\
    finalize S K =
      Some (be_bytes 8 (Z.lxor (s3 St) (Z.land (Z.shiftr K 64) MASK64)) ++
            be_bytes 8 (Z.lxor (s4 St) (Z.land K MASK64))).
Proof.
  match goal with |- exists St, ascon_permutation ?X 12 = _ /\ _ =>
    destruct (ascon_permutation_wf X 12) as [St [E W]]; [lia|] end.
  exists St. split; [exact E|].
  unfold finalize. cbv zeta. rewrite E. lazy beta iota.
  destruct W as (_ & _ & _ & H3 & H4).
  pose proof (range_lxor 64 (s3 St) _ ltac:(lia) H3 (range_land_MASK64 (Z.shiftr K 64))) as R3.
  pose proof (range_lxor 64 (s4 St) _ ltac:(lia) H4 (range_land_MASK64 K)) as R4.
  rewrite to_bytes_big_16 by (apply rate_word_range; auto).
  rewrite be_bytes_16_words by exact R4. reflexivity.
Qed.

(** ** The whole encryption *)

Lemma ascon_aead128_enc_inv (K N : Z) (A P : data) (C : list bytes) (T : bytes) :
  ascon_aead128_enc K N A P = Some (C, T) ->
  exists S0 S1 S2,
    ascon_initialize K N = Some S0 /\
    process_associated_data S0 (data_bits A) = Some S1 /\
    process_plaintext S1 (data_bits P) = Some (S2, C) /\
    finalize S2 K = Some T.
Proof.
  unfold ascon_aead128_enc. cbv zeta.
  destruct (ascon_initialize K N) as [S0|] eqn:E0; [|discriminate].
  destruct (process_associated_data S0 _) as [S1|] eqn:E1; [|discriminate].
  destruct (process_plaintext S1 _) as [[S2 C2]|] eqn:E2; [|discriminate].
  destruct (finalize S2 K) as [T2|] eqn:E3; [|discriminate].
  intros H. injection H as <- <-. exists S0, S1, S2. auto.
Qed.

Lemma ascon_aead128_enc_total (K N : Z) (A P : data) :
  exists C T, ascon_aead128_enc K N A P = Some (C, T).
Proof.
  unfold ascon_aead128_enc. cbv zeta.
  destruct (ascon_initialize_total K N) as [S0 [E0 W0]]. rewrite E0. lazy beta iota.
  destruct (process_associated_data_total S0 (data_bits A) W0) as [S1 [E1 W1]].
  rewrite E1. lazy beta iota.
  destruct (process_plaintext_total S1 (data_bits P) W1) as [S2 [C [E2 W2]]].
  rewrite E2. lazy beta iota.
  destruct (finalize_tag S2 K) as [St [_ E3]]. rewrite E3. eexists _, _. reflexivity.
Qed.

(** ** Key and nonce halves *)

Lemma int_from_bytes_big_concat (a c : bytes) :
  int_from_bytes_big (a ++ c) =
  int_from_bytes_big a * 2 ^ (8 * Z.of_nat (length c)) + int_from_bytes_big c.
Proof.
  induction c as [|y c IH] using rev_ind.
  - rewrite app_nil_r. change (int_from_bytes_big []) with 0. simpl. lia.
  - rewrite app_assoc, !int_from_bytes_big_app, IH, length_app.
    replace (8 * Z.of_nat (length c + length [y])) with (8 * Z.of_nat (length c) + 8)
      by (cbn [length]; lia).
    rewrite Z.pow_add_r by lia. change (2 ^ 8) with 256. ring.
Qed.

(** [(K >> 64) & MASK] and [K & MASK] of [K = int.from_bytes(b, "big")] for
    a 16-byte [b] are the big-endian values of its two 8-byte halves. *)
Lemma halves_of_16_bytes (b : bytes) :
  length b = 16%nat -> is_bytes b ->
  Z.land (Z.shiftr (int_from_bytes_big b) 64) MASK64 = int_from_bytes_big (firstn 8 b) /\
  Z.land (int_from_bytes_big b) MASK64 = int_from_bytes_big (skipn 8 b).
Proof.
  intros Hl Hb.
  assert (Rh : 0 <= int_from_bytes_big (firstn 8 b) < 2 ^ 64).
  { pose proof (int_from_bytes_big_range _ (is_bytes_firstn 8 b Hb)) as R.
    rewrite length_firstn, Hl in R. exact R. }
  assert (Rl : 0 <= int_from_bytes_big (skipn 8 b) < 2 ^ 64).
  { pose proof (int_from_bytes_big_range _ (is_bytes_skipn 8 b Hb)) as R.
    rewrite length_skipn, Hl in R. exact R. }
  pose proof (int_from_bytes_big_concat (firstn 8 b) (skipn 8 b)) as Hv.
  rewrite firstn_skipn, length_skipn, Hl in Hv. change (8 * Z.of_nat (16 - 8)) with 64 in Hv.
  rewrite Hv, !land_MASK64, Z.shiftr_div_pow2 by lia. split.
  - rewrite Z.div_add_l by lia. rewrite (Z.div_small (int_from_bytes_big (skipn 8 b))) by lia.
    rewrite Z.add_0_r. apply Z.mod_small. exact Rh.
  - rewrite Z.add_comm, Z.mod_add by lia. apply Z.mod_small. exact Rl.
Qed.

(** ** Keys and nonces past 128 bits *)

Lemma land_shiftr_mod128 (K : Z) :
  Z.land (Z.shiftr (K mod 2 ^ 128) 64) MASK64 = Z.land (Z.shiftr K 64) MASK64.
Proof.
  apply Z.bits_inj'. intros i Hi.
  rewrite !testbit_land_MASK64, !Z.shiftr_spec, Z.testbit_mod_pow2 by lia.
  destruct (Z.ltb_spec i 64); [|reflexivity].
  replace (i + 64 <? 128) with true by (symmetry; apply Z.ltb_lt; lia). reflexivity.
Qed.

Lemma land_mod128 (K : Z) : Z.land (K mod 2 ^ 128) MASK64 = Z.land K MASK64.
Proof.
  apply Z.bits_inj'. intros i Hi.
  rewrite !testbit_land_MASK64, Z.testbit_mod_pow2 by lia.
  destruct (Z.ltb_spec i 64); [|reflexivity].
  replace (i <? 128) with true by (symmetry; apply Z.ltb_lt; lia). reflexivity.
Qed.

(** ** Ciphertext lengths *)

Lemma map_length_Forall {A} (l : list (list A)) (n : nat) :
  Forall (fun c => length c = n) l -> map (@length A) l = repeat n (length l).
Proof. induction 1 as [|c l Hc _ IH]; [reflexivity|]. simpl. rewrite Hc, IH. reflexivity. Qed.

Lemma length_concat_Forall {A} (l : list (list A)) (n : nat) :
  Forall (fun c => length c = n) l -> length (concat l) = (n * length l)%nat.
Proof.
  induction 1 as [|c l Hc _ IH]; [simpl; lia|].
  simpl. rewrite length_app, Hc, IH. lia.
Qed.

Lemma last_parse_input_bytes (P : bytes) :
  last (parse_input (bytes_to_bits P) 128) [] = bytes_to_bits (skipn (16 * (length P / 16)) P).
Proof.
  rewrite parse_input_bytes_to_bits. unfold parse_input.
  rewrite map_app. cbn [map]. rewrite last_last, Nat.mul_comm. reflexivity.
Qed.

Lemma skipn_16_of_17 (P : bytes) : length P = 17%nat -> skipn 16 P = [nth 16 P 0].
Proof.
  intros HP.
  destruct P as [|x0 [|x1 [|x2 [|x3 [|x4 [|x5 [|x6 [|x7 [|x8 [|x9 [|x10 [|x11 [|x12 [|x13
    [|x14 [|x15 [|x16 [|x17 P]]]]]]]]]]]]]]]]]];
    try discriminate HP; reflexivity.
Qed.

(** ** The first known-answer test *)

(** Count = 1 of the Ascon-AEAD128 KAT file (key 00..0F, nonce 10..1F,
    empty associated data and plaintext), tag
    4F9C278211BEC9316BF68F46EE8B2EC6: the little-endian instantiation gives
    this tag, the code gives 617F752958D909FC87700C16BE95B95C. *)
Lemma kat_count1 :
  SpecLE.encrypt kat_key_bytes kat_nonce_bytes [] [] =
    Some ([], [0x4F; 0x9C; 0x27; 0x82; 0x11; 0xBE; 0xC9; 0x31;
               0x6B; 0xF6; 0x8F; 0x46; 0xEE; 0x8B; 0x2E; 0xC6]) /\
  ascon_aead128_enc (int_from_bytes_big kat_key_bytes) (int_from_bytes_big kat_nonce_bytes)
    (Bytes []) (Bytes []) =
    Some ([], [0x61; 0x7F; 0x75; 0x29; 0x58; 0xD9; 0x09; 0xFC;
               0x87; 0x70; 0x0C; 0x16; 0xBE; 0x95; 0xB9; 0x5C]).
Proof. split; vm_compute; reflexivity. Qed.

(** * Properties of the specification *)

(** ** Decryption inverts encryption *)

(** C1: for every key and nonce (16-byte ones included, as the integers
    [int.from_bytes(key, "big")] of the harness), every associated data and
    every byte plaintext [PT], encryption succeeds with some [(C, T)], and
    the spec's decrypt-and-verify applied to the joined ciphertext and the
    tag returns [Ok PT]. *)
Theorem ascon_aead128_dec_enc (K N : Z) (A : data) (P : bytes) :
  is_bytes P ->
  exists C T,
    ascon_aead128_enc K N A (Bytes P) = Some (C, T) /\
    ascon_aead128_dec K N A (concat C) T = Some (Ok P).
Proof.
  intros HP. destruct (ascon_aead128_enc_total K N A (Bytes P)) as [C [T E]].
  exists C, T. split; [exact E|].
  destruct (ascon_aead128_enc_inv _ _ _ _ _ _ E) as (S0 & S1 & S2 & E0 & E1 & E2 & E3).
  destruct (ascon_initialize_total K N) as [S0' [E0' W0]].
  rewrite E0 in E0'. injection E0' as <-.
  destruct (process_associated_data_total S0 (data_bits A) W0) as [S1' [E1' W1]].
  rewrite E1 in E1'. injection E1' as <-.
  cbn [data_bits] in E2.
  destruct (process_plaintext_ciphertext S1 P W1 HP)
    as (S' & cts & lc & M & Ept & _ & _ & _ & Hlc & Ect & HM).
  rewrite E2 in Ept.
  pose proof (f_equal (fun o => match o with Some (St, _) => St | None => S2 end) Ept) as HS2.
  pose proof (f_equal (fun o => match o with Some (_, c) => c | None => [] end) Ept) as HC.
  cbv beta iota in HS2, HC. subst S'.
  assert (Hcat : concat C = concat cts ++ lc).
  { rewrite HC, concat_app. destruct (length P mod 16 =? 0)%nat eqn:Em.
    - apply Nat.eqb_eq in Em. rewrite Em in Hlc.
      destruct lc; [reflexivity | discriminate].
    - cbn [concat]. rewrite app_nil_r. reflexivity. }
  destruct (finalize_tag S2 K) as [St [_ EF]]. rewrite E3 in EF.
  pose proof (f_equal (fun o => match o with Some t => t | None => T end) EF) as ET.
  cbv beta iota in ET.
  unfold ascon_aead128_dec.
  replace (length T =? 16)%nat with true
    by (rewrite ET, length_app, !length_be_bytes; reflexivity).
  cbn [negb]. rewrite E0. lazy beta iota. rewrite E1. lazy beta iota.
  rewrite Hcat, Ect. lazy beta iota. rewrite E3. lazy beta iota.
  destruct (list_eq_dec Z.eq_dec T T) as [_|Hn]; [|congruence].
  rewrite HM. reflexivity.
Qed.

Lemma ascon_aead128_dec_enc_witness :
  exists C T,
    ascon_aead128_enc (int_from_bytes_big kat_key_bytes) (int_from_bytes_big kat_nonce_bytes)
      (Bytes [1; 2; 3]) (Bytes (map Z.of_nat (seq 0 20))) = Some (C, T) /\
    ascon_aead128_dec (int_from_bytes_big kat_key_bytes) (int_from_bytes_big kat_nonce_bytes)
      (Bytes [1; 2; 3]) (concat C) T = Some (Ok (map Z.of_nat (seq 0 20))).
Proof.
  apply ascon_aead128_dec_enc. apply is_bytesb_spec. vm_compute. reflexivity.
Defined.

(** ** Domain separation *)

(** C2 (what the code does): associated-data processing ends, for the empty
    and for every non-empty [A], with one XOR of [1] into [S4], the least
    significant bit, after the padded blocks are absorbed (none when [A] is
    empty). *)
Theorem process_associated_data_domain_separation (S S' : state) (A : bits) :
  process_associated_data S A = Some S' ->
  exists Sa,
    (A = [] -> Sa = S) /\
    (A <> [] ->
       Sponge.ad_loop ascon_permutation
         (removelast (parse_input A 128) ++ [pad (last (parse_input A 128) []) 128]) S
       = Some Sa) /\
    S' = mkState (s0 Sa) (s1 Sa) (s2 Sa) (s3 Sa) (Z.lxor (s4 Sa) 1).
Proof.
  unfold process_associated_data, Sponge.process_associated_data.
  destruct A as [|a A'].
  - intros H. injection H as <-. exists S. split; [auto | split; [congruence | reflexivity]].
  - cbv zeta. destruct (Sponge.ad_loop _ _ _) as [S1|] eqn:E; [|discriminate].
    intros H. injection H as <-. exists S1.
    split; [discriminate | split; [auto | reflexivity]].
Qed.

Lemma process_associated_data_domain_separation_witness :
  exists Sa,
    Sa = zero_state /\
    mkState 0 0 0 0 1 = mkState (s0 Sa) (s1 Sa) (s2 Sa) (s3 Sa) (Z.lxor (s4 Sa) 1).
Proof.
  destruct (process_associated_data_domain_separation zero_state (mkState 0 0 0 0 1) []
              ltac:(reflexivity)) as [Sa [H0 [_ H2]]].
  exists Sa. split; [apply H0; reflexivity | exact H2].
Defined.

(** C2 fails: on the empty associated data the code sets bit 0 of [S4]
    ([S4 ^= 1]), not bit 63 ([S4 ^= 1 << 63]). *)
Lemma process_associated_data_bit0_not_bit63 :
  exists S', process_associated_data zero_state [] = Some S' /\
             s4 S' <> Z.lxor (s4 zero_state) (Z.shiftl 1 63).
Proof.
  exists (mkState 0 0 0 0 1). split; [reflexivity|]. vm_compute. discriminate.
Qed.

(** ** Round constants *)

(** C3, amended: an [rounds]-round call ([rounds <= 16]) runs the rounds
    [i = 0 .. rounds - 1], round [i] XORing table entry
    [CONST[16 - rounds + i]] into [S2]; the table runs from [0x3C] (index 0)
    to [0x4B] (index 15); a 12-round call starts at index 4 ([0xF0]) and an
    8-round call at index 8 ([0xB4]). *)
Theorem ascon_permutation_round_constants (S : state) (rounds : Z) :
  rounds <= 16 ->
  ascon_permutation S rounds =
    Some (rounds_with (fun i => nth (Z.to_nat (16 - rounds + i)) CONST 0)
                      (map Z.of_nat (seq 0 (Z.to_nat rounds))) S) /\
  (forall i, 0 <= i < rounds ->
     get_round_constant rounds i = Some (nth (Z.to_nat (16 - rounds + i)) CONST 0)) /\
  nth 0 CONST 0 = 0x3C /\ nth 15 CONST 0 = 0x4B /\
  get_round_constant 12 0 = py_index CONST 4 /\ py_index CONST 4 = Some 0xF0 /\
  get_round_constant 8 0 = py_index CONST 8 /\ py_index CONST 8 = Some 0xB4.
Proof.
  intros Hr. split; [apply ascon_permutation_table, Hr|].
  split; [intros i Hi; apply get_round_constant_table; lia|].
  repeat split; reflexivity.
Qed.

Lemma ascon_permutation_round_constants_witness :
  ascon_permutation zero_state 12 =
    Some (rounds_with (fun i => nth (Z.to_nat (16 - 12 + i)) CONST 0)
                      (map Z.of_nat (seq 0 (Z.to_nat 12))) zero_state) /\
  get_round_constant 12 0 = Some (nth (Z.to_nat (16 - 12 + 0)) CONST 0).
Proof.
  destruct (ascon_permutation_round_constants zero_state 12 ltac:(lia)) as [H1 [H2 _]].
  split; [exact H1 | apply H2; lia].
Defined.

(** C3 fails: the first constant of a 12-round call is not table entry 0
    and that of an 8-round call is not table entry 4. *)
Lemma round_constant_start_index :
  get_round_constant 12 0 <> py_index CONST 0 /\
  get_round_constant 8 0 <> py_index CONST 4.
Proof. split; vm_compute; discriminate. Qed.

(** ** Initialization *)

(** C4 (what the code does): with the key and nonce given as
    [int.from_bytes(., "big")] of 16 bytes, as the harness does,
    initialization loads each 8-byte half big-endian into its lane, [S1],
    [S2] from the key and [S3], [S4] from the nonce after
    [S0 = 0x00001000808C0001], permutes 12 rounds, and XORs the key halves
    into [S3] and [S4]. *)
Theorem ascon_initialize_lanes (key nonce : bytes) :
  length key = 16%nat -> is_bytes key -> length nonce = 16%nat -> is_bytes nonce ->
  ascon_initialize (int_from_bytes_big key) (int_from_bytes_big nonce) =
    (St <- ascon_permutation
             (mkState 0x00001000808C0001
                (int_from_bytes_big (firstn 8 key)) (int_from_bytes_big (skipn 8 key))
                (int_from_bytes_big (firstn 8 nonce)) (int_from_bytes_big (skipn 8 nonce))) 12 ;;
     Some (mkState (s0 St) (s1 St) (s2 St)
             (Z.lxor (s3 St) (int_from_bytes_big (firstn 8 key)))
             (Z.lxor (s4 St) (int_from_bytes_big (skipn 8 key))))).
Proof.
  intros Hk Hkb Hn Hnb.
  destruct (halves_of_16_bytes key Hk Hkb) as [Kh Kl].
  destruct (halves_of_16_bytes nonce Hn Hnb) as [Nh Nl].
  unfold ascon_initialize. cbv zeta. rewrite Kh, Kl, Nh, Nl. reflexivity.
Qed.

Lemma ascon_initialize_lanes_witness :
  ascon_initialize (int_from_bytes_big kat_key_bytes) (int_from_bytes_big kat_nonce_bytes) =
    (St <- ascon_permutation
             (mkState 0x00001000808C0001
                (int_from_bytes_big (firstn 8 kat_key_bytes))
                (int_from_bytes_big (skipn 8 kat_key_bytes))
                (int_from_bytes_big (firstn 8 kat_nonce_bytes))
                (int_from_bytes_big (skipn 8 kat_nonce_bytes))) 12 ;;
     Some (mkState (s0 St) (s1 St) (s2 St)
             (Z.lxor (s3 St) (int_from_bytes_big (firstn 8 kat_key_bytes)))
             (Z.lxor (s4 St) (int_from_bytes_big (skipn 8 kat_key_bytes))))).
Proof.
  apply ascon_initialize_lanes.
  - reflexivity.
  - apply is_bytesb_spec. vm_compute. reflexivity.
  - reflexivity.
  - apply is_bytesb_spec. vm_compute. reflexivity.
Defined.

(** C4 fails: on the first KAT key and nonce the code loads the first key
    half as [0x0001020304050607], where little-endian loading gives
    [0x0706050403020100], and the state it builds differs from the
    little-endian initialization. *)
Lemma ascon_initialize_not_little_endian :
  int_from_bytes_big (firstn 8 kat_key_bytes) = 0x0001020304050607 /\
  SpecLE.load_le (firstn 8 kat_key_bytes) = 0x0706050403020100 /\
  ascon_initialize (int_from_bytes_big kat_key_bytes) (int_from_bytes_big kat_nonce_bytes) <>
  SpecLE.initialize kat_key_bytes kat_nonce_bytes.
Proof.
  split; [reflexivity | split; [reflexivity|]]. vm_compute. discriminate.
Qed.

(** ** Finalization *)

(** C5 (what the code does): for every state and key, finalization XORs
    the key halves into [S2] and [S3], permutes 12 rounds, XORs the key
    halves into [S3] and [S4], and returns the 16 bytes of [S3 || S4],
    each half serialized big-endian. *)
Theorem finalize_tag_big_endian (S : state) (K : Z) :
  exists St T,
    ascon_permutation
      (mkState (s0 S) (s1 S) (Z.lxor (s2 S) (Z.land (Z.shiftr K 64) MASK64))
               (Z.lxor (s3 S) (Z.land K MASK64)) (s4 S)) 12 = Some St /\
    finalize S K = Some T /\
    T = be_bytes 8 (Z.lxor (s3 St) (Z.land (Z.shiftr K 64) MASK64)) ++
        be_bytes 8 (Z.lxor (s4 St) (Z.land K MASK64)) /\
    length T = 16%nat.
Proof.
  destruct (finalize_tag S K) as [St [E1 E2]].
  eexists St, _. split; [exact E1 | split; [exact E2 | split; [reflexivity|]]].
  rewrite length_app, !length_be_bytes. reflexivity.
Qed.

(** C5 fails: on the all-zero state and key, the code's tag is not the
    little-endian serialization of [S3 || S4] (each half comes out
    byte-reversed). *)
Lemma finalize_tag_not_little_endian :
  finalize zero_state 0 <> SpecLE.finalize zero_state (repeat 0 16).
Proof. vm_compute. discriminate. Qed.

(** ** Ciphertext length *)

(** C6, amended: for every key, nonce, associated data and byte plaintext
    [PT], encryption emits [len(PT) // 16] full blocks of 16 bytes then, when
    [len(PT) % 16 <> 0], one block of [len(PT) % 16] bytes, so [len(ct) ==
    len(PT)]; the last block absorbed is the tail of [PT] after its full
    blocks, padded.  For [len(PT) == 16] the chunks are [16] (the padded
    last block is padding only and emits nothing); for [len(PT) == 17] they
    are [16; 1], the 17th byte coming from the final block that holds the
    17th plaintext byte followed by the padding. *)
Theorem ascon_aead128_enc_ciphertext_length (K N : Z) (A : data) (P : bytes) :
  is_bytes P ->
  exists C T,
    ascon_aead128_enc K N A (Bytes P) = Some (C, T) /\
    length (concat C) = length P /\
    map (@length Z) C =
      repeat 16%nat (length P / 16) ++
      (if (length P mod 16 =? 0)%nat then [] else [(length P mod 16)%nat]) /\
    last (parse_input (bytes_to_bits P) 128) [] =
      bytes_to_bits (skipn (16 * (length P / 16)) P) /\
    (length P = 16%nat -> map (@length Z) C = [16%nat] /\
                          last (parse_input (bytes_to_bits P) 128) [] = []) /\
    (length P = 17%nat -> map (@length Z) C = [16%nat; 1%nat] /\
                          last (parse_input (bytes_to_bits P) 128) [] =
                            bytes_to_bits [nth 16 P 0]).
Proof.
  intros HP. destruct (ascon_aead128_enc_total K N A (Bytes P)) as [C [T E]].
  destruct (ascon_aead128_enc_inv _ _ _ _ _ _ E) as (S0 & S1 & S2 & E0 & E1 & E2 & _).
  destruct (ascon_initialize_total K N) as [S0' [E0' W0]].
  rewrite E0 in E0'. injection E0' as <-.
  destruct (process_associated_data_total S0 (data_bits A) W0) as [S1' [E1' W1]].
  rewrite E1 in E1'. injection E1' as <-.
  cbn [data_bits] in E2.
  destruct (process_plaintext_ciphertext S1 P W1 HP)
    as (S' & cts & lc & M & Ept & _ & Hcts & Hlen & Hlc & _ & _).
  rewrite E2 in Ept.
  pose proof (f_equal (fun o => match o with Some (_, c) => c | None => [] end) Ept) as HC.
  cbv beta iota in HC.
  assert (Hmap : map (@length Z) C =
      repeat 16%nat (length P / 16) ++
      (if (length P mod 16 =? 0)%nat then [] else [(length P mod 16)%nat])).
  { unfold bytes in *. rewrite HC, map_app, (map_length_Forall cts 16 Hcts), Hlen.
    destruct (length P mod 16 =? 0)%nat; [reflexivity|]. cbn [map]. rewrite Hlc. reflexivity. }
  exists C, T. split; [exact E|]. split.
  { unfold bytes in *. rewrite HC, length_concat, map_app, (map_length_Forall cts 16 Hcts), Hlen, list_sum_app.
    pose proof (Nat.div_mod_eq (length P) 16) as Hd.
    assert (Hr : forall k, list_sum (repeat 16%nat k) = (16 * k)%nat)
      by (induction k as [|k IH]; simpl; [reflexivity | rewrite IH; lia]).
    rewrite Hr. destruct (length P mod 16 =? 0)%nat eqn:Em.
    - apply Nat.eqb_eq in Em. cbn [map list_sum fold_right]. lia.
    - cbn [map list_sum fold_right]. rewrite Hlc. lia. }
  split; [exact Hmap|]. split; [apply last_parse_input_bytes|]. split.
  - intros H16. rewrite Hmap, last_parse_input_bytes, H16. split; [reflexivity|].
    rewrite skipn_all2 by (rewrite H16; apply Nat.leb_le; reflexivity). reflexivity.
  - intros H17. rewrite Hmap, last_parse_input_bytes, H17. split; [reflexivity|].
    change (16 * (17 / 16))%nat with 16%nat. rewrite skipn_16_of_17 by exact H17. reflexivity.
Qed.

Lemma ascon_aead128_enc_ciphertext_length_witness :
  exists C T,
    ascon_aead128_enc (int_from_bytes_big kat_key_bytes) (int_from_bytes_big kat_nonce_bytes)
      (Bytes []) (Bytes (map Z.of_nat (seq 0 17))) = Some (C, T) /\
    map (@length Z) C = [16%nat; 1%nat].
Proof.
  destruct (ascon_aead128_enc_ciphertext_length (int_from_bytes_big kat_key_bytes)
              (int_from_bytes_big kat_nonce_bytes) (Bytes []) (map Z.of_nat (seq 0 17))
              ltac:(apply is_bytesb_spec; vm_compute; reflexivity))
    as [C [T (E & _ & _ & _ & _ & H17)]].
  exists C, T. split; [exact E | apply H17; reflexivity].
Defined.

(** C6 fails: the 17th ciphertext byte does not come from a padding-only
    block: two 17-byte plaintexts that agree on their first 16 bytes give
    the same first 16 ciphertext bytes but different 17th bytes, so the
    final block carries the 17th plaintext byte. *)
Lemma ciphertext_17th_byte_from_plaintext :
  match ascon_aead128_enc (int_from_bytes_big kat_key_bytes) (int_from_bytes_big kat_nonce_bytes)
          (Bytes []) (Bytes (map Z.of_nat (seq 0 17))),
        ascon_aead128_enc (int_from_bytes_big kat_key_bytes) (int_from_bytes_big kat_nonce_bytes)
          (Bytes []) (Bytes (map Z.of_nat (seq 0 16) ++ [255]))
  with
  | Some (C, _), Some (C', _) =>
      firstn 16 (concat C) = firstn 16 (concat C') /\
      length (concat C) = 17%nat /\ nth 16 (concat C) 0 <> nth 16 (concat C') 0
  | _, _ => False
  end.
Proof. vm_compute. split; [reflexivity | split; [reflexivity | discriminate]]. Qed.

(** ** Padding *)

(** C7 (what the code does): [pad] of a byte string's bits, with rate 128,
    are the bits of the string followed by one [0x80] byte (a ['1'] bit then
    zeros, most significant bit first) and [15 - len % 16] zero bytes; the
    padded length is the input length rounded up to the next non-zero
    multiple of 16, a full extra block when the length is already a
    multiple of 16. *)
Theorem pad_bytes_0x80 (X : bytes) :
  pad (bytes_to_bits X) 128 = bytes_to_bits (X ++ [0x80] ++ repeat 0 (15 - length X mod 16)) /\
  length (X ++ [0x80] ++ repeat 0 (15 - length X mod 16)) = (16 * (length X / 16 + 1))%nat.
Proof.
  split; [apply pad_bytes_to_bits|].
  rewrite !length_app, repeat_length. cbn [length].
  pose proof (Nat.div_mod_eq (length X) 16). pose proof (Nat.mod_upper_bound (length X) 16).
  lia.
Qed.

(** C7 fails: padding the empty plaintext gives the byte [0x80], not
    [0x01], followed by 15 zero bytes. *)
Lemma pad_empty_not_0x01 :
  pad (bytes_to_bits []) 128 <> bytes_to_bits (SpecLE.pad_bytes []).
Proof. vm_compute. discriminate. Qed.

(** ** Key and nonce sizes *)

(** C8, amended: encryption performs no size check on the key or the nonce:
    it only uses their low 128 bits ([K mod 2^128], [N mod 2^128]), so a
    longer key or nonce is silently truncated, and it always returns a
    ciphertext and a tag, never an error. *)
Theorem ascon_aead128_enc_low_128_bits (K N : Z) (A P : data) :
  ascon_aead128_enc K N A P = ascon_aead128_enc (K mod 2 ^ 128) (N mod 2 ^ 128) A P /\
  exists C T, ascon_aead128_enc K N A P = Some (C, T).
Proof.
  split; [|apply ascon_aead128_enc_total].
  unfold ascon_aead128_enc, ascon_initialize, finalize.
  rewrite !land_shiftr_mod128, !land_mod128. reflexivity.
Qed.

(** C8 fails: a 17-byte key [01 00 .. 00] raises no error; encryption
    succeeds and returns exactly what the all-zero 16-byte key gives. *)
Lemma ascon_aead128_enc_17_byte_key :
  ascon_aead128_enc (int_from_bytes_big (1 :: repeat 0 16)) (int_from_bytes_big kat_nonce_bytes)
    (Bytes []) (Bytes []) =
  ascon_aead128_enc (int_from_bytes_big (repeat 0 16)) (int_from_bytes_big kat_nonce_bytes)
    (Bytes []) (Bytes []) /\
  ascon_aead128_enc (int_from_bytes_big (1 :: repeat 0 16)) (int_from_bytes_big kat_nonce_bytes)
    (Bytes []) (Bytes []) <> None.
Proof. split; vm_compute; [reflexivity | discriminate]. Qed.

(** ** Absorption touches only the rate *)

(** C9: the absorption steps between permutation calls change only [S0]
    and [S1] (the external data is XORed into the rate) apart from the
    domain-separation XOR into [S4]: with any permutation that leaves
    [S2], [S3], [S4] as they are, associated-data processing changes the
    capacity by exactly [S4 ^= 1] and plaintext processing changes it not
    at all, for every state and every input. *)
Theorem absorption_capacity (permute : state -> Z -> option state) :
  (forall S r S', permute S r = Some S' -> capacity S' = capacity S) ->
  forall (S S1 S2 : state) (A P : bits) (C : list bytes),
    Sponge.process_associated_data permute S A = Some S1 ->
    Sponge.process_plaintext permute S1 P = Some (S2, C) ->
    capacity S1 = (s2 S, s3 S, Z.lxor (s4 S) 1) /\ capacity S2 = capacity S1.
Proof.
  intros Hp S S1 S2 A P C E1 E2. split.
  - exact (process_associated_data_capacity permute Hp S S1 A E1).
  - exact (process_plaintext_capacity permute Hp S1 S2 P C E2).
Qed.

Lemma absorption_capacity_witness :
  capacity (mkState 13835058055282163712 0 0 0 1) =
    (s2 zero_state, s3 zero_state, Z.lxor (s4 zero_state) 1) /\
  capacity (mkState 6917529027641081856 0 0 0 1) = capacity (mkState 13835058055282163712 0 0 0 1).
Proof.
  apply (absorption_capacity (fun S _ => Some S)
           ltac:(intros S r S' H; injection H as <-; reflexivity)
           zero_state (mkState 13835058055282163712 0 0 0 1) (mkState 6917529027641081856 0 0 0 1)
           [true] [true; false] [[]]); vm_compute; reflexivity.
Defined.

(** ** Round-constant lookups stay in the table *)

(** C10: for [1 <= rounds <= 16], every round index [i] the permutation
    loop visits satisfies [0 <= i < rounds], its table index
    [16 - rounds + i] lies in [0 .. 15], the lookup returns that entry
    (no [IndexError], no negative index), and the permutation returns a
    state for every input state. *)
Theorem ascon_permutation_constants_in_range (S : state) (rounds : Z) :
  1 <= rounds <= 16 ->
  (forall i, In i (map Z.of_nat (seq 0 (Z.to_nat rounds))) ->
     0 <= i < rounds /\ 0 <= 16 - rounds + i <= 15 /\
     get_round_constant rounds i = Some (nth (Z.to_nat (16 - rounds + i)) CONST 0)) /\
  exists S', ascon_permutation S rounds = Some S'.
Proof.
  intros Hr. split.
  - intros i Hi. apply in_rounds_range in Hi.
    split; [exact Hi | split; [lia | apply get_round_constant_table; lia]].
  - destruct (ascon_permutation_wf S rounds Hr) as [S' [E _]]. exists S'. exact E.
Qed.

Lemma ascon_permutation_constants_in_range_witness :
  exists S', ascon_permutation zero_state 12 = Some S'.
Proof.
  destruct (ascon_permutation_constants_in_range zero_state 12 ltac:(lia)) as [_ H].
  exact H.
Defined.

(** * Further properties of the code *)

Lemma rotr_bits (v r k : Z) :
  0 <= v < 2 ^ 64 -> 0 <= k ->
  Z.testbit (rotr v r) k = (k <? 64) && Z.testbit v ((k + r) mod 64).
Proof.
  intros Hv Hk. unfold rotr.
  pose proof (Z.mod_pos_bound r 64 ltac:(lia)) as Hr.
  set (r' := r mod 64) in *.
  rewrite testbit_land_MASK64 by lia.
  destruct (Z.ltb_spec k 64); [|reflexivity]. cbn [andb].
  rewrite Z.lor_spec, testbit_land_MASK64 by lia.
  replace (k <? 64) with true by (symmetry; apply Z.ltb_lt; lia). cbn [andb].
  rewrite Z.shiftr_spec by lia.
  replace ((k + r) mod 64) with ((k + r') mod 64)
    by (unfold r'; rewrite Z.add_mod_idemp_r; lia).
  destruct (Z.ltb_spec (k + r') 64).
  - rewrite Z.shiftl_spec_low by lia. rewrite Z.mod_small by lia. apply orb_false_r.
  - rewrite (bits_of_range v 64) by (auto; lia). cbn [orb].
    rewrite Z.shiftl_spec by lia. f_equal.
    rewrite <- (Z.mod_small (k - (64 - r')) 64) by lia.
    replace (k + r') with (k - (64 - r') + 1 * 64) by lia. rewrite Z.mod_add; lia.
Qed.

Lemma rotr_range (v r : Z) : 0 <= rotr v r < 2 ^ 64.
Proof. unfold rotr. apply range_land_MASK64. Qed.

Lemma rotr_rotr_aux (v a b : Z) :
  0 <= v < 2 ^ 64 -> rotr (rotr v a) b = rotr v (a + b).
Proof.
  intros Hv. apply Z.bits_inj'. intros k Hk.
  rewrite (rotr_bits (rotr v a) b k) by (auto using rotr_range).
  rewrite (rotr_bits v (a + b) k) by auto.
  destruct (Z.ltb_spec k 64); [|reflexivity]. cbn [andb].
  rewrite rotr_bits by (auto; apply Z.mod_pos_bound; lia).
  replace ((k + b) mod 64 <? 64) with true
    by (symmetry; apply Z.ltb_lt, Z.mod_pos_bound; lia). cbn [andb].
  f_equal. rewrite Z.add_mod_idemp_l by lia. f_equal. lia.
Qed.

Lemma rotr_0 (v : Z) : 0 <= v < 2 ^ 64 -> rotr v 0 = v.
Proof.
  intros Hv. apply Z.bits_inj'. intros k Hk. rewrite rotr_bits by auto.
  destruct (Z.ltb_spec k 64).
  - rewrite Z.add_0_r, Z.mod_small by lia. reflexivity.
  - symmetry. apply (bits_of_range v 64); auto; lia.
Qed.

(** [rotr] on a 64-bit word is a right rotation: the result is again a
    64-bit word, and its bit [k] is bit [(k + r) mod 64] of the input, for
    any rotation amount [r] (reduced by [r % 64] as the code does). *)
Theorem rotr_rotation (v r : Z) :
  0 <= v < 2 ^ 64 ->
  0 <= rotr v r < 2 ^ 64 /\
  forall k, 0 <= k < 64 -> Z.testbit (rotr v r) k = Z.testbit v ((k + r) mod 64).
Proof.
  intros Hv. split; [apply rotr_range|]. intros k Hk.
  rewrite rotr_bits by (auto; lia). replace (k <? 64) with true by (symmetry; apply Z.ltb_lt; lia).
  reflexivity.
Qed.

Lemma rotr_rotation_witness :
  0 <= 1 < 2 ^ 64 /\ 0 <= rotr 1 1 < 2 ^ 64 /\ Z.testbit (rotr 1 1) 63 = Z.testbit 1 0.
Proof.
  split; [lia|]. destruct (rotr_rotation 1 1 ltac:(lia)) as [H1 H2].
  split; [exact H1 | exact (H2 63 ltac:(lia))].
Defined.

(** Rotations of a 64-bit word compose by adding their amounts, and a
    rotation by [a] is undone by a rotation by [64 - a]. *)
Theorem rotr_compose (v a b : Z) :
  0 <= v < 2 ^ 64 ->
  rotr (rotr v a) b = rotr v (a + b) /\ rotr (rotr v a) (64 - a) = v.
Proof.
  intros Hv. split; [apply rotr_rotr_aux; exact Hv|].
  rewrite rotr_rotr_aux by exact Hv.
  apply Z.bits_inj'. intros k Hk. rewrite rotr_bits by auto.
  replace ((k + (a + (64 - a))) mod 64) with (k mod 64)
    by (replace (k + (a + (64 - a))) with (k + 1 * 64) by lia; rewrite Z.mod_add; lia).
  destruct (Z.ltb_spec k 64).
  - rewrite Z.mod_small by lia. reflexivity.
  - symmetry. apply (bits_of_range v 64); auto; lia.
Qed.

Lemma rotr_compose_witness :
  0 <= 5 < 2 ^ 64 /\ rotr (rotr 5 3) 4 = rotr 5 7 /\ rotr (rotr 5 3) (64 - 3) = 5.
Proof.
  split; [lia|]. exact (rotr_compose 5 3 4 ltac:(lia)).
Defined.

Lemma is_column_all (X : list Z) : is_column X -> In X all_columns.
Proof.
  intros [HL HF].
  destruct X as [|a [|b [|c [|d [|e [|f X]]]]]]; try discriminate HL.
  inversion HF as [|? ? Ha HF1]; subst. inversion HF1 as [|? ? Hb HF2]; subst.
  inversion HF2 as [|? ? Hc HF3]; subst. inversion HF3 as [|? ? Hd HF4]; subst.
  inversion HF4 as [|? ? He _]; subst.
  destruct Ha as [->| ->], Hb as [->| ->], Hc as [->| ->], Hd as [->| ->], He as [->| ->];
    vm_compute; tauto.
Qed.

Lemma all_is_column (X : list Z) : In X all_columns -> is_column X.
Proof.
  revert X. apply Forall_forall. unfold all_columns, is_column. cbn.
  repeat apply Forall_cons; try apply Forall_nil; split; try reflexivity;
    repeat apply Forall_cons; try apply Forall_nil; (left; reflexivity) || (right; reflexivity).
Qed.

Lemma s_box_injective_check :
  forallb (fun X => forallb (fun Y =>
    implb (list_Z_eqb (s_box_compute X) (s_box_compute Y)) (list_Z_eqb X Y))
    all_columns) all_columns = true.
Proof. vm_compute. reflexivity. Qed.

Lemma s_box_surjective_check :
  forallb (fun Y => existsb (fun X => list_Z_eqb (s_box_compute X) Y) all_columns)
    all_columns = true.
Proof. vm_compute. reflexivity. Qed.

Lemma list_Z_eqb_true (a b : list Z) : list_Z_eqb a b = true -> a = b.
Proof. unfold list_Z_eqb. destruct (list_eq_dec Z.eq_dec a b); congruence. Qed.

Lemma list_Z_eqb_refl (a : list Z) : list_Z_eqb a a = true.
Proof. unfold list_Z_eqb. destruct (list_eq_dec Z.eq_dec a a); congruence. Qed.

Lemma land_1_bit (b : Z) : Z.land b 1 = 0 \/ Z.land b 1 = 1.
Proof.
  change (Z.land b 1) with (Z.land b (Z.ones 1)). rewrite (Z.land_ones b 1) by lia.
  pose proof (Z.mod_pos_bound b (2 ^ 1)). simpl in *. lia.
Qed.

Lemma s_box_compute_column (X : list Z) : is_column (s_box_compute X).
Proof.
  split; [reflexivity|]. unfold s_box_compute. cbv zeta. cbn [map].
  repeat apply Forall_cons; try apply Forall_nil; apply land_1_bit.
Qed.

(** [s_box_compute] maps each five-bit column to a five-bit column and is a
    bijection on the 32 five-bit columns: injective and onto. *)
Theorem s_box_compute_bijective :
  (forall X, is_column X -> is_column (s_box_compute X)) /\
  (forall X Y, is_column X -> is_column Y -> s_box_compute X = s_box_compute Y -> X = Y) /\
  (forall Y, is_column Y -> exists X, is_column X /\ s_box_compute X = Y).
Proof.
  split; [intros X _; exact (s_box_compute_column X)|]. split.
  - intros X Y HX HY E. apply is_column_all in HX, HY.
    pose proof s_box_injective_check as H. rewrite forallb_forall in H.
    specialize (H X HX). rewrite forallb_forall in H. specialize (H Y HY).
    rewrite E, list_Z_eqb_refl in H. apply list_Z_eqb_true. exact H.
  - intros Y HY. apply is_column_all in HY.
    pose proof s_box_surjective_check as H. rewrite forallb_forall in H.
    specialize (H Y HY). apply existsb_exists in H as [X [HX E]].
    exists X. split; [apply all_is_column; exact HX | apply list_Z_eqb_true; exact E].
Qed.

Lemma testbit_1_pos (m : Z) : 0 < m -> Z.testbit 1 m = false.
Proof. intros H. destruct m; try lia. reflexivity. Qed.

Lemma land_1_b2z (y : Z) : Z.land y 1 = Z.b2z (Z.testbit y 0).
Proof.
  apply Z.bits_inj'. intros i Hi. rewrite Z.land_spec.
  destruct (Z.eq_dec i 0) as [->|Hne].
  - destruct (Z.testbit y 0); reflexivity.
  - rewrite testbit_1_pos by lia. rewrite andb_false_r.
    destruct (Z.testbit y 0); cbn [Z.b2z]; [symmetry; apply testbit_1_pos; lia|].
    symmetry. apply Z.testbit_0_l.
Qed.

Lemma column_bit (x k : Z) : 0 <= k -> Z.land (Z.shiftr x k) 1 = Z.b2z (Z.testbit x k).
Proof. intros Hk. rewrite land_1_b2z, Z.shiftr_spec by lia. reflexivity. Qed.

Lemma upd_bit_testbit (x k o n : Z) :
  0 <= k -> 0 <= n ->
  Z.testbit (upd_bit x k o) n = if n =? k then Z.testbit o 0 else Z.testbit x n.
Proof.
  intros Hk Hn. unfold upd_bit.
  rewrite Z.lor_spec, Z.land_spec, Z.lnot_spec, !Z.shiftl_spec, Z.land_spec by lia.
  destruct (Z.eqb_spec n k) as [->|Hne].
  - rewrite Z.sub_diag. cbn [Z.testbit Pos.testbit negb]. rewrite andb_false_r, andb_true_r.
    reflexivity.
  - destruct (Z.ltb_spec n k).
    + rewrite !(Z.testbit_neg_r _ (n - k)) by lia. rewrite andb_false_l, andb_true_r, orb_false_r.
      reflexivity.
    + rewrite testbit_1_pos by lia. rewrite andb_false_r, andb_true_r, orb_false_r. reflexivity.
Qed.

Lemma sbox_column_get (S : state) (k : Z) (j : nat) :
  (j < 5)%nat ->
  get (sbox_column S k) j = upd_bit (get S j) k (nth j (s_box_compute (column S k)) 0).
Proof. intros Hj. destruct j as [|[|[|[|[|j]]]]]; try lia; reflexivity. Qed.

Lemma s_box_compute_bits (X : list Z) :
  map (fun j => Z.b2z (Z.testbit (nth j (s_box_compute X) 0) 0)) (seq 0 5) = s_box_compute X.
Proof.
  unfold s_box_compute. cbv zeta. cbn [map seq nth].
  rewrite !Z.land_spec. change (Z.testbit 1 0) with true. rewrite !andb_true_r.
  rewrite <- !land_1_b2z. reflexivity.
Qed.

Lemma column_ext (S T : state) (k : Z) :
  0 <= k -> (forall j, (j < 5)%nat -> Z.testbit (get T j) k = Z.testbit (get S j) k) ->
  column T k = column S k.
Proof.
  intros Hk H. unfold column. apply map_ext_in. intros j Hj. apply in_seq in Hj.
  rewrite !column_bit by exact Hk. rewrite H by lia. reflexivity.
Qed.

Lemma sbox_column_spec (S : state) (k : Z) :
  0 <= k ->
  column (sbox_column S k) k = s_box_compute (column S k) /\
  (forall j n, (j < 5)%nat -> 0 <= n -> n <> k ->
     Z.testbit (get (sbox_column S k) j) n = Z.testbit (get S j) n).
Proof.
  intros Hk. split.
  - rewrite <- (s_box_compute_bits (column S k)). unfold column at 1. apply map_ext_in.
    intros j Hj. apply in_seq in Hj.
    rewrite column_bit, sbox_column_get, upd_bit_testbit, Z.eqb_refl by lia. reflexivity.
  - intros j n Hj Hn Hne. rewrite sbox_column_get, upd_bit_testbit by lia.
    apply Z.eqb_neq in Hne. rewrite Hne. reflexivity.
Qed.

Lemma fold_sbox_columns (ks : list Z) (S : state) :
  Forall (fun k => 0 <= k) ks -> NoDup ks ->
  (forall k, In k ks -> column (fold_left sbox_column ks S) k = s_box_compute (column S k)) /\
  (forall j n, (j < 5)%nat -> 0 <= n -> ~ In n ks ->
     Z.testbit (get (fold_left sbox_column ks S) j) n = Z.testbit (get S j) n).
Proof.
  intros Hpos Hnd. revert S. induction Hnd as [|k0 ks Hnin Hnd IH]; intros S.
  - split; [intros k []|]. intros; reflexivity.
  - inversion Hpos as [|? ? Hk0 Hpos']; subst. cbn [fold_left].
    destruct (sbox_column_spec S k0 Hk0) as [C1 C2].
    destruct (IH Hpos' (sbox_column S k0)) as [I1 I2]. split.
    + intros k [<-|Hk].
      * rewrite column_ext with (S := sbox_column S k0) by (auto; intros j Hj; apply I2; auto).
        exact C1.
      * rewrite I1 by exact Hk. f_equal. apply column_ext.
        { rewrite Forall_forall in Hpos'. auto. }
        intros j Hj. apply C2; auto.
        { rewrite Forall_forall in Hpos'. auto. }
        intros ->. contradiction.
    + intros j n Hj Hn Hni. rewrite I2 by (auto; intros H; apply Hni; right; exact H).
      apply C2; auto. intros ->. apply Hni. left. reflexivity.
Qed.

(** One step of the bit-sliced S-box loop of [ascon_permutation] replaces
    column [k] of the state with its image under [s_box_compute] and leaves
    every other bit of the five words unchanged. *)
Theorem sbox_column_columns (S : state) (k : Z) :
  0 <= k ->
  column (sbox_column S k) k = s_box_compute (column S k) /\
  (forall j n, (j < 5)%nat -> n <> k ->
     Z.testbit (get (sbox_column S k) j) n = Z.testbit (get S j) n).
Proof.
  intros Hk. destruct (sbox_column_spec S k Hk) as [C1 C2]. split; [exact C1|].
  intros j n Hj Hne. destruct (Z.ltb_spec n 0).
  - rewrite !Z.testbit_neg_r by lia. reflexivity.
  - apply C2; auto; lia.
Qed.

Lemma sbox_column_columns_witness :
  0 <= 3 /\
  column (sbox_column (mkState 8 0 8 0 0) 3) 3 = s_box_compute (column (mkState 8 0 8 0 0) 3).
Proof.
  split; [lia|]. destruct (sbox_column_columns (mkState 8 0 8 0 0) 3 ltac:(lia)) as [H _].
  exact H.
Defined.

(** The full S-box layer ([for k in range(64)]) applies [s_box_compute]
    to each of the 64 columns and leaves the bits from 64 upwards as they
    were. *)
Theorem sbox_layer_columns (S : state) :
  (forall k, 0 <= k < 64 -> column (sbox_layer S) k = s_box_compute (column S k)) /\
  (forall j n, (j < 5)%nat -> 64 <= n ->
     Z.testbit (get (sbox_layer S) j) n = Z.testbit (get S j) n).
Proof.
  assert (Hpos : Forall (fun k => 0 <= k) (map Z.of_nat (seq 0 64))).
  { apply Forall_forall. intros k Hk. apply in_map_iff in Hk as [m [<- _]]. lia. }
  assert (Hnd : NoDup (map Z.of_nat (seq 0 64))).
  { apply NoDup_map_inv with (f := Z.to_nat). rewrite map_map.
    rewrite map_ext_in with (g := fun m => m) by (intros; apply Nat2Z.id).
    rewrite map_id. apply seq_NoDup. }
  destruct (fold_sbox_columns _ S Hpos Hnd) as [F1 F2]. unfold sbox_layer. split.
  - intros k Hk. apply F1. apply in_map_iff. exists (Z.to_nat k). split; [lia|].
    apply in_seq. lia.
  - intros j n Hj Hn. apply F2; auto; [lia|]. intros H. apply in_map_iff in H as [m [<- Hm]].
    apply in_seq in Hm. lia.
Qed.

Lemma get_round_constant_none (rnd i : Z) :
  get_round_constant rnd i = None <-> ~ (-16 <= 16 - rnd + i < 16).
Proof.
  unfold get_round_constant, py_index. rewrite length_CONST.
  change (Z.of_nat 16) with 16. change (Z.opp 16) with (-16).
  set (x := 16 - rnd + i).
  destruct (Z.leb_spec 0 x), (Z.ltb_spec x 16), (Z.leb_spec (-16) x), (Z.ltb_spec x 0);
    cbn [andb]; split; intros E; try lia; try reflexivity; exfalso; apply nth_error_None in E;
    rewrite length_CONST in E; lia.
Qed.

Lemma permutation_loop_none (rounds : Z) (is : list Z) (S : state) :
  permutation_loop rounds is S = None <-> exists i, In i is /\ get_round_constant rounds i = None.
Proof.
  revert S. induction is as [|i is IH]; intros S; cbn [permutation_loop].
  - split; [discriminate | intros [i [[] _]]].
  - destruct (get_round_constant rounds i) as [c|] eqn:E.
    + rewrite IH. split.
      * intros [j [Hj Ej]]. exists j. split; [right|]; assumption.
      * intros [j [[<-|Hj] Ej]]; [congruence|]. exists j. split; assumption.
    + split; [intros _; exists i; split; [left; reflexivity | exact E] | reflexivity].
Qed.

Lemma permutation_loop_wf (rounds : Z) (is : list Z) (S S' : state) :
  permutation_loop rounds is S = Some S' -> is <> [] -> wf S'.
Proof.
  revert S. induction is as [|i is IH]; intros S E Hne; [congruence|].
  cbn [permutation_loop] in E. destruct (get_round_constant rounds i) as [c|]; [|discriminate].
  destruct is as [|j is'].
  - cbn [permutation_loop] in E. injection E as <-. apply wf_linear_diffusion_layer.
  - eapply IH; [exact E | discriminate].
Qed.

(** [ascon_permutation] with [rounds <= 0] returns the state unchanged;
    with [1 <= rounds <= 32] it succeeds with five 64-bit words; with more
    than 32 rounds the round-constant lookup leaves [CONST] and the call
    fails. *)
Theorem ascon_permutation_rounds (S : state) (rounds : Z) :
  (rounds <= 0 -> ascon_permutation S rounds = Some S) /\
  (1 <= rounds <= 32 -> exists S', ascon_permutation S rounds = Some S' /\ wf S') /\
  (32 < rounds -> ascon_permutation S rounds = None).
Proof.
  unfold ascon_permutation. split; [|split].
  - intros Hr. replace (Z.to_nat rounds) with 0%nat by lia. reflexivity.
  - intros Hr. destruct (permutation_loop rounds _ S) as [S'|] eqn:E.
    + exists S'. split; [reflexivity|]. eapply permutation_loop_wf; [exact E|].
      destruct (Z.to_nat rounds) eqn:En; [lia | discriminate].
    + apply permutation_loop_none in E as [i [Hi Ei]]. apply in_rounds_range in Hi.
      apply get_round_constant_none in Ei. lia.
  - intros Hr. apply permutation_loop_none. exists 0. split.
    + apply in_map_iff. exists 0%nat. split; [reflexivity|]. apply in_seq. lia.
    + apply get_round_constant_none. lia.
Qed.

(** [pad X r] for [r > 0] is [X], then a single 1 bit, then zeros, up to
    the next multiple of [r] strictly above [len(X)]. *)
Theorem pad_shape (X : bits) (r : nat) :
  (0 < r)%nat ->
  length (pad X r) = ((length X / r + 1) * r)%nat /\
  firstn (length X) (pad X r) = X /\
  skipn (length X) (pad X r) = true :: repeat false (r - 1 - length X mod r).
Proof.
  intros Hr. unfold pad.
  pose proof (Nat.div_mod_eq (length X) r). pose proof (Nat.mod_upper_bound (length X) r ltac:(lia)).
  split; [|split].
  - rewrite !length_app, repeat_length. cbn [length]. nia.
  - apply firstn_length_app.
  - rewrite skipn_app, skipn_all, Nat.sub_diag, skipn_0. cbn [app]. f_equal. f_equal. lia.
Qed.

Lemma pad_shape_witness :
  (0 < 4)%nat /\ length (pad [true; false] 4) = 4%nat /\
  skipn 2 (pad [true; false] 4) = [true; false].
Proof.
  split; [lia|]. destruct (pad_shape [true; false] 4 ltac:(lia)) as [H1 [_ H3]].
  split; [exact H1 | exact H3].
Defined.

(** [process_associated_data] absorbs no block when [A] is empty and only
    flips bit 0 of [S4]. For a non-empty [A] it runs the absorption loop
    over blocks that are all 128 bits long, number [len(A) // 128 + 1], and
    concatenate to [A] followed by the 10* padding, then flips bit 0 of
    [S4]. *)
Theorem associated_data_blocks (St : state) (A : bits) :
  (A = [] -> process_associated_data St A = Some (set St 4 (Z.lxor (get St 4) 1))) /\
  (A <> [] ->
   exists blocks,
     process_associated_data St A =
       (St' <- Sponge.ad_loop ascon_permutation blocks St ;;
        Some (set St' 4 (Z.lxor (get St' 4) 1))) /\
     Forall (fun b => length b = 128%nat) blocks /\
     length blocks = (length A / 128 + 1)%nat /\
     concat blocks = A ++ [true] ++ repeat false (127 - length A mod 128)).
Proof.
  split; [intros ->; reflexivity|]. intros HA.
  exists (removelast (parse_input A 128) ++ [pad (last (parse_input A 128) []) 128]).
  split.
  { destruct A as [|a A']; [contradiction|]. reflexivity. }
  destruct (parse_input_shape A 128) as (E1 & E2 & E3 & E4); [lia|].
  destruct (parse_input_lengths A 128) as (L1 & L2).
  set (L := last (parse_input A 128) []) in *.
  set (F := removelast (parse_input A 128)) in *.
  assert (Hm : (length A mod 128 = length L)%nat)
    by (rewrite L2; pose proof (Nat.div_mod_eq (length A) 128); lia).
  assert (Hp : pad L 128 = L ++ [true] ++ repeat false (127 - length L)).
  { unfold pad. rewrite Nat.mod_small by exact E3. do 3 f_equal. lia. }
  split; [|split].
  - apply Forall_app. split; [exact E2|]. constructor; [|constructor].
    rewrite Hp, !length_app, repeat_length. cbn [length]. lia.
  - rewrite length_app, L1. reflexivity.
  - rewrite concat_app. cbn [concat]. rewrite app_nil_r, Hp, Hm.
    rewrite app_assoc. f_equal. rewrite <- E4. rewrite E1.
    rewrite concat_app. cbn [concat]. rewrite app_nil_r. reflexivity.
Qed.

(** [parse_input X r] for [r > 0] splits [X] into [len(X) // r + 1] blocks
    that concatenate back to [X]: all but the last have length [r], the last
    has length [len(X) % r] (empty when [r] divides [len(X)]). *)
Theorem parse_input_blocks {A} (X : list A) (r : nat) :
  (0 < r)%nat ->
  concat (parse_input X r) = X /\
  length (parse_input X r) = (length X / r + 1)%nat /\
  Forall (fun c => length c = r) (removelast (parse_input X r)) /\
  length (last (parse_input X r) []) = (length X mod r)%nat.
Proof.
  intros Hr. destruct (parse_input_shape X r Hr) as (E1 & E2 & E3 & E4).
  destruct (parse_input_lengths X r) as (L1 & L2).
  split; [exact E4|]. split; [|split; [exact E2|]].
  - rewrite E1, length_app, L1. reflexivity.
  - rewrite L2. pose proof (Nat.div_mod_eq (length X) r). lia.
Qed.

Lemma parse_input_blocks_witness :
  (0 < 2)%nat /\ concat (parse_input [1; 2; 3] 2) = [1; 2; 3] /\
  length (last (parse_input [1; 2; 3] 2) []) = 1%nat.
Proof.
  split; [lia|]. destruct (@parse_input_blocks Z [1; 2; 3] 2 ltac:(lia)) as [H1 [_ [_ H4]]].
  split; [exact H1 | exact H4].
Defined.

(** [parse_bytes] with rate [8 * m] gives the bit strings of the
    [m]-byte blocks of the input. *)
Theorem parse_bytes_blocks (X : bytes) (m : nat) :
  (0 < m)%nat -> parse_bytes X (8 * m) = map bytes_to_bits (parse_input X m).
Proof.
  intros Hm. unfold parse_bytes, parse_input. cbv zeta. rewrite length_bytes_to_bits, map_app, map_map.
  rewrite Nat.Div0.div_mul_cancel_l by lia.
  f_equal.
  - apply map_ext. intros i.
    replace (i * (8 * m))%nat with (8 * (i * m))%nat by lia.
    rewrite skipn_bytes_to_bits, firstn_bytes_to_bits. reflexivity.
  - cbn [map]. replace (length X / m * (8 * m))%nat with (8 * (length X / m * m))%nat by lia.
    rewrite skipn_bytes_to_bits. reflexivity.
Qed.

Lemma parse_bytes_blocks_witness :
  (0 < 1)%nat /\ parse_bytes [1; 2] (8 * 1) = map bytes_to_bits (parse_input [1; 2] 1).
Proof.
  split; [lia|]. exact (parse_bytes_blocks [1; 2] 1 ltac:(lia)).
Defined.

Lemma byte_bits_inj (x y : Z) :
  0 <= x < 256 -> 0 <= y < 256 -> byte_bits x = byte_bits y -> x = y.
Proof.
  intros Hx Hy E. rewrite <- (byte_bits_value x Hx), <- (byte_bits_value y Hy), E. reflexivity.
Qed.

Lemma app_inv_length {A} (l1 l2 r1 r2 : list A) :
  length l1 = length l2 -> l1 ++ r1 = l2 ++ r2 -> l1 = l2 /\ r1 = r2.
Proof.
  revert l2. induction l1 as [|x l1 IH]; intros [|y l2] H E; try discriminate H.
  - split; [reflexivity | exact E].
  - cbn in E. injection E as -> E. cbn in H. destruct (IH l2 ltac:(lia) E) as [-> ->].
    split; reflexivity.
Qed.

(** [bytes_to_bits] is injective on byte strings. *)
Theorem bytes_to_bits_injective (a b : bytes) :
  is_bytes a -> is_bytes b -> bytes_to_bits a = bytes_to_bits b -> a = b.
Proof.
  revert b. induction a as [|x a IH]; intros [|y b] Ha Hb E.
  - reflexivity.
  - apply (f_equal (@length bool)) in E. rewrite !length_bytes_to_bits in E. discriminate.
  - apply (f_equal (@length bool)) in E. rewrite !length_bytes_to_bits in E. discriminate.
  - inversion Ha as [|? ? Hx Ha']; inversion Hb as [|? ? Hy Hb']; subst.
    rewrite !bytes_to_bits_cons in E.
    apply app_inv_length in E as [E1 E2]; [|rewrite !length_byte_bits; reflexivity].
    f_equal; [apply byte_bits_inj; auto | apply IH; auto].
Qed.

Lemma bytes_to_bits_injective_witness :
  is_bytes [7; 200] /\ bytes_to_bits [7; 200] = bytes_to_bits [7; 200] /\ [7; 200] = [7; 200].
Proof.
  assert (Hb : is_bytes [7; 200]) by (apply is_bytesb_spec; vm_compute; reflexivity).
  split; [exact Hb|]. split; [reflexivity|].
  exact (bytes_to_bits_injective _ _ Hb Hb eq_refl).
Defined.

(** For a non-empty byte string, [int(bits, 2)] of [bytes_to_bits b] is the
    big-endian value of [b], and the bit string has [8 * len(b)] bits. *)
Theorem int_of_bytes_to_bits (b : bytes) :
  is_bytes b -> b <> [] ->
  py_int2 (bytes_to_bits b) = Some (int_from_bytes_big b) /\
  length (bytes_to_bits b) = (8 * length b)%nat.
Proof.
  intros Hb Hne. split; [apply py_int2_bytes; auto | apply length_bytes_to_bits].
Qed.

Lemma int_of_bytes_to_bits_witness :
  is_bytes [1; 2] /\ [1; 2] <> [] /\ py_int2 (bytes_to_bits [1; 2]) = Some 258.
Proof.
  assert (Hb : is_bytes [1; 2]) by (apply is_bytesb_spec; vm_compute; reflexivity).
  split; [exact Hb|]. split; [discriminate|].
  destruct (int_of_bytes_to_bits [1; 2] Hb ltac:(discriminate)) as [H _]. exact H.
Defined.

(** [int128_to_bytes i] succeeds exactly for [0 <= i < 2^128], giving 16
    bytes whose big-endian value is [i]; otherwise [to_bytes] raises. *)
Theorem int128_to_bytes_round_trip (i : Z) :
  (0 <= i < 2 ^ 128 ->
   exists b, int128_to_bytes i = Some b /\ length b = 16%nat /\ is_bytes b /\
             int_from_bytes_big b = i) /\
  (~ (0 <= i < 2 ^ 128) -> int128_to_bytes i = None).
Proof.
  unfold int128_to_bytes. split.
  - intros Hi. exists (be_bytes 16 i). rewrite to_bytes_big_16 by exact Hi.
    split; [reflexivity|]. split; [apply length_be_bytes|]. split; [apply is_bytes_be_bytes|].
    rewrite int_from_be_bytes. apply Z.mod_small. exact Hi.
  - intros Hi. rewrite to_bytes_big_eq. change (8 * Z.of_nat 16) with 128.
    destruct (Z.leb_spec 0 i), (Z.ltb_spec i (2 ^ 128)); try reflexivity. lia.
Qed.

(** Converting 16 bytes to their big-endian integer and back with
    [int128_to_bytes] gives the same bytes. *)
Theorem int128_to_bytes_of_bytes (b : bytes) :
  length b = 16%nat -> is_bytes b -> int128_to_bytes (int_from_bytes_big b) = Some b.
Proof.
  intros Hl Hb. unfold int128_to_bytes. rewrite to_bytes_big_16 by (apply block_int_range; auto).
  rewrite be_bytes_16_of_int by auto. reflexivity.
Qed.

Lemma int128_to_bytes_of_bytes_witness :
  length (map Z.of_nat (seq 240 16)) = 16%nat /\ is_bytes (map Z.of_nat (seq 240 16)) /\
  int128_to_bytes (int_from_bytes_big (map Z.of_nat (seq 240 16))) =
    Some (map Z.of_nat (seq 240 16)).
Proof.
  assert (Hb : is_bytes (map Z.of_nat (seq 240 16)))
    by (apply is_bytesb_spec; vm_compute; reflexivity).
  split; [reflexivity|]. split; [exact Hb|].
  exact (int128_to_bytes_of_bytes (map Z.of_nat (seq 240 16)) eq_refl Hb).
Defined.

Lemma size_log2 (p : positive) : Zpos (Pos.size p) = Z.log2 (Zpos p) + 1.
Proof. destruct p; cbn [Pos.size Z.log2]; try reflexivity; rewrite Pos2Z.inj_succ; reflexivity. Qed.

(** [count_total_bits n] is at least 1 and is the least width [w >= 1]
    with [|n| < 2^w]. *)
Theorem count_total_bits_width (n : Z) :
  1 <= count_total_bits n /\ Z.abs n < 2 ^ count_total_bits n /\
  (forall w, 1 <= w -> Z.abs n < 2 ^ w -> count_total_bits n <= w).
Proof.
  unfold count_total_bits. cbv zeta.
  destruct (Z.eqb_spec n 0) as [->|Hn].
  - split; [lia|]. split; [reflexivity|]. intros; lia.
  - assert (E : int_bit_length n = Z.log2 (Z.abs n) + 1)
      by (destruct n; [lia | apply size_log2 | apply size_log2]).
    rewrite E. pose proof (Z.log2_spec (Z.abs n) ltac:(lia)) as [H1 H2].
    pose proof (Z.log2_nonneg (Z.abs n)).
    split; [lia|]. split; [rewrite Z.add_1_r; exact H2|].
    intros w Hw Hlt. destruct (Z.le_gt_cases (Z.log2 (Z.abs n) + 1) w); [assumption|].
    exfalso. assert (2 ^ w <= 2 ^ Z.log2 (Z.abs n)) by (apply Z.pow_le_mono_r; lia). lia.
Qed.

Lemma pos_bit_count_size (p : positive) :
  Z.of_nat (pos_bit_count p) <= Zpos (Pos.size p) /\
  (Z.of_nat (pos_bit_count p) = Zpos (Pos.size p) <-> Zpos p = 2 ^ Zpos (Pos.size p) - 1).
Proof.
  induction p as [q IH|q IH|]; cbn [pos_bit_count Pos.size].
  - rewrite Nat2Z.inj_succ, Pos2Z.inj_succ, Pos2Z.inj_xI, Z.pow_succ_r by lia.
    destruct IH as [I1 [I2 I3]].
    split; [lia | split; intros H; [specialize (I2 ltac:(lia)) | specialize (I3 ltac:(lia))]; lia].
  - rewrite Pos2Z.inj_succ, Pos2Z.inj_xO, Z.pow_succ_r by lia.
    destruct IH as [I1 _]. split; [lia | split; intros H; lia].
  - cbn. split; [lia | split; intros; reflexivity].
Qed.

Lemma pos_bit_count_pos (p : positive) : (1 <= pos_bit_count p)%nat.
Proof. induction p; cbn [pos_bit_count]; lia. Qed.

(** [count_set_bits n] lies between 0 and [count_total_bits n]; it is 0
    only for [n = 0], and equal to [count_total_bits n] exactly when [|n|]
    is all ones. *)
Theorem count_set_bits_bounds (n : Z) :
  0 <= count_set_bits n <= count_total_bits n /\
  (count_set_bits n = 0 <-> n = 0) /\
  (count_set_bits n = count_total_bits n <-> Z.abs n = 2 ^ count_total_bits n - 1).
Proof.
  unfold count_set_bits, count_total_bits. cbv zeta.
  destruct n as [|p|p]; cbn [Z.eqb int_bit_count int_bit_length Z.abs].
  - cbn. split; [lia | split; split; intros; lia].
  - destruct (pos_bit_count_size p) as [H1 H2].
    pose proof (pos_bit_count_pos p).
    pose proof (Pos2Z.is_pos p). pose proof (Pos2Z.neg_is_neg p).
    split; [lia | split; [split; intros; lia | exact H2]].
  - destruct (pos_bit_count_size p) as [H1 H2].
    pose proof (pos_bit_count_pos p).
    pose proof (Pos2Z.is_pos p). pose proof (Pos2Z.neg_is_neg p).
    split; [lia | split; [split; intros; lia | exact H2]].
Qed.

Lemma pt_loop_shape (blocks : list bits) (S : state) (C : list bytes) :
  wf S -> Forall (fun b => b <> []) blocks ->
  exists S' cts, Sponge.pt_loop ascon_permutation blocks S C = Some (S', C ++ cts) /\ wf S' /\
    Forall (fun c => length c = 16%nat /\ is_bytes c) cts /\ length cts = length blocks.
Proof.
  intros HS Hb. revert S C HS.
  induction Hb as [|b bs Hb _ IH]; intros S C HS; cbn [Sponge.pt_loop].
  - exists S, []. rewrite app_nil_r. split; [reflexivity|]. split; [exact HS|]. split; [constructor | reflexivity].
  - destruct (py_int2_some b Hb) as [x ->]. lazy beta iota zeta.
    pose proof (wf_xor_rate S x HS) as HSx.
    fold (rate (xor_rate S x)). rewrite to_bytes_big_rate by exact HSx. lazy beta iota.
    destruct (ascon_permutation_wf (xor_rate S x) 8) as [S1 [E W]]; [lia|].
    rewrite E. lazy beta iota.
    destruct (IH S1 (C ++ [be_bytes 16 (rate (xor_rate S x))]) W) as (S' & cts & E' & W' & F & L).
    exists S', (be_bytes 16 (rate (xor_rate S x)) :: cts).
    rewrite E', <- app_assoc. split; [reflexivity|]. split; [exact W'|].
    split; [constructor; [split; [apply length_be_bytes | apply is_bytes_be_bytes] | exact F]|].
    cbn [length]. rewrite L. reflexivity.
Qed.

Lemma process_plaintext_shape (S : state) (P : bits) :
  wf S -> exists S' C, process_plaintext S P = Some (S', C) /\ wf S' /\
    Forall is_bytes C /\ length (concat C) = (length P / 8)%nat.
Proof.
  intros HS. unfold process_plaintext, Sponge.process_plaintext. cbv zeta.
  destruct (parse_input_shape P 128) as (_ & Hf & Hl & _); [lia|].
  destruct (parse_input_lengths P 128) as (L1 & L2).
  destruct (pt_loop_shape (removelast (parse_input P 128)) S [] HS) as (S1 & cts & E & W & F & Lc).
  { eapply Forall_length_not_nil; [|exact Hf]. lia. }
  rewrite E. lazy beta iota. cbn [app]. unfold bits, bytes in *.
  destruct (py_int2_some (pad (last (parse_input P 128) []) 128) (pad_not_nil _ _)) as [x Ex].
  rewrite Ex. lazy beta iota.
  pose proof (wf_xor_rate S1 x W) as HSx.
  assert (Fb : Forall is_bytes cts) by (eapply Forall_impl; [|exact F]; intros c [_ Hc]; exact Hc).
  assert (Lcts : length (concat cts) = (16 * (length P / 128))%nat)
    by (rewrite (length_concat_Forall cts 16); [lia|]; eapply Forall_impl; [|exact F]; intros c [Hc _]; exact Hc).
  set (l := length (last (parse_input P 128) [])) in *.
  pose proof (Nat.div_mod_eq (length P) 128) as Hd.
  destruct (Nat.ltb_spec 0 l).
  - fold (rate (xor_rate S1 x)). rewrite to_bytes_big_rate by exact HSx.
    eexists _, _; split; [reflexivity|]. split; [exact HSx|]. split.
    + apply Forall_app. split; [exact Fb|]. constructor; [|constructor].
      apply is_bytes_firstn, is_bytes_be_bytes.
    + rewrite concat_app. cbn [concat]. rewrite app_nil_r, length_app, Lcts, length_firstn, length_be_bytes.
      rewrite Nat.min_l by (apply Nat.Div0.div_le_upper_bound; lia).
      assert (En : length P = (16 * (length P / 128) * 8 + l)%nat) by lia.
      rewrite En at 2. rewrite Nat.div_add_l by lia. reflexivity.
  - eexists _, _; split; [reflexivity|]. split; [exact HSx|]. split; [exact Fb|].
    rewrite Lcts.
    assert (En : length P = (16 * (length P / 128) * 8 + 0)%nat) by lia.
    rewrite En at 2. rewrite Nat.div_add_l by lia. rewrite Nat.add_0_r. reflexivity.
Qed.

Lemma ascon_aead128_enc_shape (K N : Z) (A P : data) :
  exists C T, ascon_aead128_enc K N A P = Some (C, T) /\
    length T = 16%nat /\ is_bytes T /\ Forall is_bytes C /\
    length (concat C) = (length (data_bits P) / 8)%nat.
Proof.
  unfold ascon_aead128_enc. cbv zeta.
  destruct (ascon_initialize_total K N) as [S0 [E0 W0]]. rewrite E0. lazy beta iota.
  destruct (process_associated_data_total S0 (data_bits A) W0) as [S1 [E1 W1]].
  rewrite E1. lazy beta iota.
  destruct (process_plaintext_shape S1 (data_bits P) W1) as (S2 & C & E2 & W2 & FC & LC).
  rewrite E2. lazy beta iota.
  destruct (finalize_tag S2 K) as [St [_ Ef]]. rewrite Ef. lazy beta iota.
  exists C, (be_bytes 8 (Z.lxor (s3 St) (Z.land (Z.shiftr K 64) MASK64)) ++
             be_bytes 8 (Z.lxor (s4 St) (Z.land K MASK64))).
  split; [reflexivity|]. split; [rewrite length_app, !length_be_bytes; reflexivity|].
  split; [apply is_bytes_app; split; apply is_bytes_be_bytes|]. split; assumption.
Qed.

(** [ascon_aead128_enc] never raises: for any key, nonce, associated data
    and plaintext it returns ciphertext blocks of bytes and a 16-byte tag. *)
Theorem ascon_aead128_enc_never_fails (K N : Z) (A P : data) :
  exists C T, ascon_aead128_enc K N A P = Some (C, T) /\
    length T = 16%nat /\ is_bytes T /\ Forall is_bytes C.
Proof.
  destruct (ascon_aead128_enc_shape K N A P) as (C & T & E & L & B & F & _).
  exists C, T. auto.
Qed.

(** For a plaintext given as a bit string, the ciphertext produced by
    [ascon_aead128_enc] has [len(P) // 8] bytes. *)
Theorem ascon_aead128_enc_bitstring_length (K N : Z) (A : data) (P : bits) :
  exists C T, ascon_aead128_enc K N A (Bitstring P) = Some (C, T) /\
    length (concat C) = (length P / 8)%nat.
Proof.
  destruct (ascon_aead128_enc_shape K N A (Bitstring P)) as (C & T & E & _ & _ & _ & L).
  exists C, T. auto.
Qed.

Lemma str_eqb_true (a b : str) : str_eqb a b = true <-> a = b.
Proof. unfold str_eqb. destruct (list_eq_dec Ascii.ascii_dec a b); split; congruence. Qed.

Lemma length_bytes_hex (b : bytes) : length (bytes_hex b) = (2 * length b)%nat.
Proof. induction b as [|x b IH]; [reflexivity|]. cbn [bytes_hex flat_map app length] in *. fold (bytes_hex b). lia. Qed.

Lemma hex_digit_hex_char (n : Z) : 0 <= n < 16 -> hex_digit_value (hex_char n) = Some n.
Proof.
  intros Hn.
  assert (Hall : forallb (fun m => match hex_digit_value (hex_char (Z.of_nat m)) with
                                   | Some v => v =? Z.of_nat m | None => false end)
                   (seq 0 16) = true) by (vm_compute; reflexivity).
  rewrite forallb_forall in Hall. specialize (Hall (Z.to_nat n)).
  rewrite Z2Nat.id in Hall by lia.
  destruct (hex_digit_value (hex_char n)) as [v|].
  - apply Z.eqb_eq in Hall; [congruence|]. apply in_seq. lia.
  - discriminate Hall. apply in_seq. lia.
Qed.

Lemma byte_nibbles (x : Z) :
  0 <= x < 256 ->
  0 <= Z.shiftr x 4 < 16 /\ 0 <= Z.land x 15 < 16 /\ 16 * Z.shiftr x 4 + Z.land x 15 = x.
Proof.
  intros Hx. rewrite Z.shiftr_div_pow2 by lia. change 15 with (Z.ones 4). rewrite Z.land_ones by lia.
  change (2 ^ 4) with 16. pose proof (Z.div_mod x 16 ltac:(lia)). pose proof (Z.mod_pos_bound x 16 ltac:(lia)).
  split; [split; [apply Z.div_pos | apply Z.div_lt_upper_bound]; lia|]. lia.
Qed.

Lemma unhexlify_bytes_hex (b : bytes) : is_bytes b -> unhexlify (bytes_hex b) = Some b.
Proof.
  induction 1 as [|x b Hx _ IH]; [reflexivity|].
  cbn [bytes_hex flat_map app]. fold (bytes_hex b). cbn [unhexlify].
  destruct (byte_nibbles x Hx) as (H1 & H2 & H3).
  rewrite !hex_digit_hex_char by assumption. rewrite IH, H3. reflexivity.
Qed.

Lemma hex_to_bytes_unhexlify (x : str) : hex_to_bytes x = unhexlify x.
Proof. destruct x; reflexivity. Qed.

(** Decoding the lower-case hex string [b.hex()] with [hex_to_bytes] gives
    back [b]; the hex string has two characters per byte. *)
Theorem bytes_hex_round_trip (b : bytes) :
  is_bytes b -> hex_to_bytes (bytes_hex b) = Some b /\ length (bytes_hex b) = (2 * length b)%nat.
Proof.
  intros Hb. rewrite hex_to_bytes_unhexlify. split; [apply unhexlify_bytes_hex; exact Hb|].
  apply length_bytes_hex.
Qed.

Lemma bytes_hex_round_trip_witness :
  is_bytes [171; 5] /\ hex_to_bytes (bytes_hex [171; 5]) = Some [171; 5].
Proof.
  assert (Hb : is_bytes [171; 5]) by (apply is_bytesb_spec; vm_compute; reflexivity).
  split; [exact Hb|]. destruct (bytes_hex_round_trip _ Hb) as [H _]. exact H.
Defined.

Lemma hex_digit_check :
  forallb (fun m => match hex_digit_value (Ascii.ascii_of_nat m) with
                    | Some v => (0 <=? v) && (v <? 16) && str_eqb (py_lower [Ascii.ascii_of_nat m]) [hex_char v]
                    | None => true end) (seq 0 256) = true.
Proof. vm_compute. reflexivity. Qed.

Lemma hex_digit_value_spec (c : Ascii.ascii) (v : Z) :
  hex_digit_value c = Some v -> 0 <= v < 16 /\ py_lower [c] = [hex_char v].
Proof.
  intros E. pose proof hex_digit_check as H. rewrite forallb_forall in H.
  specialize (H (Ascii.nat_of_ascii c)). rewrite Ascii.ascii_nat_embedding, E in H.
  specialize (H ltac:(apply in_seq; pose proof (Ascii.nat_ascii_bounded c); lia)).
  apply andb_true_iff in H as [H H3]. apply andb_true_iff in H as [H1 H2].
  apply Z.leb_le in H1. apply Z.ltb_lt in H2. apply str_eqb_true in H3. auto.
Qed.

Lemma shiftr_land_nibbles (h l : Z) :
  0 <= h < 16 -> 0 <= l < 16 -> Z.shiftr (16 * h + l) 4 = h /\ Z.land (16 * h + l) 15 = l.
Proof.
  intros Hh Hl. rewrite Z.shiftr_div_pow2 by lia. change 15 with (Z.ones 4). rewrite Z.land_ones by lia.
  change (2 ^ 4) with 16. split.
  - rewrite Z.mul_comm, Z.div_add_l by lia. rewrite Z.div_small by lia. lia.
  - rewrite Z.mul_comm, Z.add_comm, Z.mod_add by lia. apply Z.mod_small. lia.
Qed.

Lemma unhexlify_cons2 (c1 c2 : Ascii.ascii) (rest : str) :
  unhexlify (c1 :: c2 :: rest) =
  (h <- hex_digit_value c1 ;; l <- hex_digit_value c2 ;; r <- unhexlify rest ;;
   Some (16 * h + l :: r)).
Proof. reflexivity. Qed.

(** When [hex_to_bytes x] succeeds, [x] has two characters per decoded
    byte, the result is a byte string, and re-encoding it with [.hex()] gives
    [x.lower()]. *)
Theorem hex_to_bytes_decoded (x : str) (b : bytes) :
  hex_to_bytes x = Some b ->
  length x = (2 * length b)%nat /\ is_bytes b /\ bytes_hex b = py_lower x.
Proof.
  rewrite hex_to_bytes_unhexlify.
  remember (length x) as n eqn:En. revert x b En.
  induction n as [n IH] using lt_wf_ind; intros x b En E.
  destruct x as [|c1 [|c2 rest]].
  - injection E as <-. subst n. split; [reflexivity|]. split; [constructor | reflexivity].
  - discriminate E.
  - rewrite unhexlify_cons2 in E.
    destruct (hex_digit_value c1) as [h|] eqn:E1; [|discriminate].
    destruct (hex_digit_value c2) as [l|] eqn:E2; [|discriminate].
    destruct (unhexlify rest) as [r|] eqn:E3; [|discriminate].
    apply (f_equal (fun o => match o with Some t => t | None => [] end)) in E.
    cbv beta iota in E. subst b.
    destruct (IH (length rest)) with (x := rest) (b := r) as (L & B & X);
      [subst n; cbn [length]; lia | reflexivity | exact E3 |].
    destruct (hex_digit_value_spec c1 h E1) as [Hh Lh].
    destruct (hex_digit_value_spec c2 l E2) as [Hl Ll].
    destruct (shiftr_land_nibbles h l Hh Hl) as [S1 S2].
    assert (Hb : 0 <= 16 * h + l < 256) by lia.
    remember (16 * h + l) as y eqn:Ey.
    split; [subst n; cbn [length]; lia|]. split; [exact (Forall_cons _ Hb B)|].
    cbn [bytes_hex flat_map app]. fold (bytes_hex r). rewrite S1, S2, X.
    change (py_lower (c1 :: c2 :: rest)) with (py_lower [c1] ++ py_lower [c2] ++ py_lower rest).
    rewrite Lh, Ll. reflexivity.
Qed.

Lemma hex_to_bytes_decoded_witness :
  hex_to_bytes (map Ascii.ascii_of_nat [65; 98]%nat) = Some [171] /\
  bytes_hex [171] = py_lower (map Ascii.ascii_of_nat [65; 98]%nat).
Proof.
  assert (H : hex_to_bytes (map Ascii.ascii_of_nat [65; 98]%nat) = Some [171])
    by (vm_compute; reflexivity).
  split; [exact H|]. destruct (hex_to_bytes_decoded _ _ H) as [_ [_ E]]. exact E.
Defined.

(** For a 16-byte tag, the test of [run_kats] ([C == ct and T_hex == tag]
    on the split of [CT.lower()]) passes exactly when the hex of the
    ciphertext followed by the hex of the tag equals [CT.lower()]. *)
Theorem kat_vector_passes_iff (C : list bytes) (T : bytes) (CT : str) :
  length T = 16%nat ->
  kat_vector_passes C T CT = true <-> bytes_hex (concat C) ++ bytes_hex T = py_lower CT.
Proof.
  intros HT. unfold kat_vector_passes, py_slice_from, py_slice_to, py_slice_bound. cbv zeta.
  assert (LT : length (bytes_hex T) = 32%nat) by (rewrite length_bytes_hex, HT; reflexivity).
  set (s := py_lower CT). set (c := bytes_hex (concat C)). set (t := bytes_hex T) in *.
  change (-32 <? 0) with true. cbv iota.
  rewrite andb_true_iff, !str_eqb_true.
  destruct (Nat.le_gt_cases 32 (length s)) as [Hs|Hs].
  - replace (Z.to_nat (Z.max 0 (-32 + Z.of_nat (length s)))) with (length s - 32)%nat by lia.
    split.
    + intros [E1 E2]. rewrite E1, E2. apply firstn_skipn.
    + intros E. rewrite <- E. rewrite length_app, LT, Nat.add_sub.
      rewrite firstn_length_app, skipn_app, skipn_all, Nat.sub_diag, skipn_0. split; reflexivity.
  - replace (Z.to_nat (Z.max 0 (-32 + Z.of_nat (length s)))) with 0%nat by lia.
    rewrite skipn_0. split.
    + intros [_ E2]. exfalso. rewrite <- E2 in Hs. lia.
    + intros E. exfalso. rewrite <- E, length_app in Hs. lia.
Qed.

Lemma kat_vector_passes_iff_witness :
  length (repeat 9 16) = 16%nat /\
  kat_vector_passes [[1]; [254]] (repeat 9 16)
    (map Ascii.ascii_of_nat ([48; 49; 70; 69] ++ concat (repeat [48; 57] 16))%nat) = true.
Proof.
  split; [reflexivity|]. apply (kat_vector_passes_iff [[1]; [254]] (repeat 9 16) _ eq_refl).
  vm_compute. reflexivity.
Defined.

Lemma fold_left_seq_shift {A} (f : A -> nat -> A) (d s m : nat) (a : A) :
  fold_left f (seq (d + s) m) a = fold_left (fun a i => f a (d + i)%nat) (seq s m) a.
Proof.
  revert s a. induction m as [|m IH]; intros s a; [reflexivity|].
  cbn [seq fold_left]. rewrite <- IH. f_equal. f_equal. lia.
Qed.

Lemma fold_left_ext_in {A B} (f g : A -> B -> A) (l : list B) (a : A) :
  (forall a x, In x l -> f a x = g a x) -> fold_left f l a = fold_left g l a.
Proof.
  revert a. induction l as [|x l IH]; intros a H; [reflexivity|].
  cbn [fold_left]. rewrite H by (left; reflexivity). apply IH. intros; apply H; right; assumption.
Qed.

Lemma lor_disjoint_add (a x n : Z) :
  0 <= n -> 0 <= a < 2 ^ n -> Z.lor a (Z.shiftl x n) = a + x * 2 ^ n.
Proof.
  intros Hn Ha. rewrite Z.shiftl_mul_pow2 by exact Hn.
  assert (H0 : Z.land a (x * 2 ^ n) = 0).
  { apply Z.bits_inj'. intros i Hi. rewrite Z.land_spec, Z.testbit_0_l.
    destruct (Z.ltb_spec i n).
    - rewrite Z.mul_pow2_bits_low by lia. apply andb_false_r.
    - rewrite (bits_of_range a n) by (auto; lia). reflexivity. }
  rewrite <- Z.lxor_lor by exact H0. symmetry. apply Z.add_nocarry_lxor. exact H0.
Qed.

(** The packing of the first [m] bytes of a chunk, as the loop of
    [send_data] does it. *)
Lemma send_data_word_chunk (data_in : bytes) (d : nat) :
  (d mod 4 = 0)%nat ->
  send_data_word data_in d =
  fold_left (pack_step (skipn d data_in)) (seq 0 (Nat.min 4 (length data_in - d))) (0, 0).
Proof.
  intros Hd. unfold send_data_word. change CCWD8 with 4%nat.
  replace (Nat.min (d + 4) (length data_in) - d)%nat with (Nat.min 4 (length data_in - d)) by lia.
  rewrite <- (Nat.add_0_r d) at 1. rewrite fold_left_seq_shift.
  apply fold_left_ext_in. intros [bdi v] i Hi. apply in_seq in Hi. unfold pack_step.
  rewrite nth_skipn.
  replace ((d + i) mod 4)%nat with i; [reflexivity|].
  rewrite Nat.Div0.add_mod, Hd, Nat.add_0_l, Nat.Div0.mod_mod, Nat.mod_small; lia.
Qed.

Lemma int_from_bytes_big_cons (x : Z) (l : bytes) :
  int_from_bytes_big (x :: l) = x * 2 ^ (8 * Z.of_nat (length l)) + int_from_bytes_big l.
Proof.
  change (x :: l) with ([x] ++ l). rewrite int_from_bytes_big_concat. reflexivity.
Qed.

Lemma firstn_S_nth (c : bytes) (m : nat) :
  (m < length c)%nat -> firstn (S m) c = firstn m c ++ [nth m c 0].
Proof.
  revert c. induction m as [|m IH]; intros [|x c] H; cbn [length] in H; try lia; [reflexivity|].
  change (firstn (S (S m)) (x :: c)) with (x :: firstn (S m) c). rewrite IH by lia. reflexivity.
Qed.

Lemma pack_fold (c : bytes) (m : nat) :
  is_bytes c -> (m <= length c)%nat ->
  fold_left (pack_step c) (seq 0 m) (0, 0) =
  (int_from_bytes_big (rev (firstn m c)), 2 ^ Z.of_nat m - 1).
Proof.
  intros Hc. induction m as [|m IH]; intros Hm; [reflexivity|].
  rewrite seq_S, fold_left_app, IH by lia. cbn [fold_left Nat.add]. unfold pack_step.
  assert (Hf : firstn (S m) c = firstn m c ++ [nth m c 0]) by (apply firstn_S_nth; lia).
  pose proof (Forall_nth (fun x => 0 <= x < 256) c) as Hn. destruct Hn as [Hn _].
  specialize (Hn Hc m 0 ltac:(lia)).
  assert (Hr : is_bytes (rev (firstn m c))) by (apply Forall_rev, is_bytes_firstn, Hc).
  pose proof (int_from_bytes_big_range _ Hr) as Hrange.
  rewrite length_rev, length_firstn, Nat.min_l in Hrange by lia.
  f_equal.
  - rewrite Hf, rev_app_distr. cbn [rev app]. rewrite int_from_bytes_big_cons, lor_disjoint_add by lia.
    rewrite length_rev, length_firstn, Nat.min_l by lia. lia.
  - rewrite lor_disjoint_add by (try split; try lia; assert (0 < 2 ^ Z.of_nat m) by (apply Z.pow_pos_nonneg; lia); lia).
    rewrite Nat2Z.inj_succ, Z.pow_succ_r by lia. lia.
Qed.

Lemma to_bytes_big_of_int (b : bytes) :
  is_bytes b -> to_bytes_big (int_from_bytes_big b) (length b) = Some b.
Proof.
  intros Hb. rewrite to_bytes_big_eq. pose proof (int_from_bytes_big_range b Hb) as [H1 H2].
  replace ((0 <=? int_from_bytes_big b) && (int_from_bytes_big b <? 2 ^ (8 * Z.of_nat (length b))))
    with true by (symmetry; apply andb_true_iff; split; [apply Z.leb_le | apply Z.ltb_lt]; lia).
  rewrite be_bytes_of_int by exact Hb. reflexivity.
Qed.

Lemma int_from_bytes_big_zeros (k : nat) (b : bytes) :
  int_from_bytes_big (repeat 0 k ++ b) = int_from_bytes_big b.
Proof.
  rewrite int_from_bytes_big_concat.
  replace (int_from_bytes_big (repeat 0 k)) with 0; [lia|].
  induction k as [|k IH]; [reflexivity|].
  cbn [repeat]. rewrite int_from_bytes_big_cons, <- IH. lia.
Qed.

(** In the hardware test bench, packing the bytes [d .. d + CCWD8) of a byte
    string into a bus word [bdi] with its byte-valid mask [bdi_valid], at a
    word-aligned offset inside the data, and unpacking [bdo = bdi] with that
    mask gives back exactly those bytes, in order. *)
Theorem send_data_word_round_trip (data_in : bytes) (d : nat) :
  is_bytes data_in -> (d mod CCWD8 = 0)%nat -> (d < length data_in)%nat ->
  send_data_out (fst (send_data_word data_in d)) (snd (send_data_word data_in d)) =
  Some (firstn CCWD8 (skipn d data_in)).
Proof.
  change CCWD8 with 4%nat. intros Hb Hd Hlt.
  rewrite send_data_word_chunk by exact Hd.
  rewrite <- length_skipn. pose proof (is_bytes_skipn d _ Hb) as Hc.
  assert (Hne : (1 <= length (skipn d data_in))%nat) by (rewrite length_skipn; lia).
  rewrite pack_fold by (auto; lia). cbn [fst snd].
  set (c := skipn d data_in) in *. clearbody c.
  set (m := Nat.min 4 (length c)).
  assert (Hm : (m <= 4)%nat /\ (m <= length c)%nat) by lia.
  set (L := rev (firstn m c)).
  assert (HL : length (repeat 0 (4 - m) ++ L) = 4%nat)
    by (unfold L; rewrite length_app, repeat_length, length_rev, length_firstn; lia).
  assert (HbL : is_bytes (repeat 0 (4 - m) ++ L)).
  { apply is_bytes_app. split; [apply Forall_forall; intros x Hx; apply repeat_spec in Hx; lia|].
    apply Forall_rev, is_bytes_firstn, Hc. }
  unfold send_data_out. change CCWD8 with 4%nat.
  pose proof (to_bytes_big_of_int _ HbL) as E. rewrite HL, int_from_bytes_big_zeros in E.
  rewrite E.
  lazy beta iota. f_equal. unfold L, m.
  destruct c as [|x0 [|x1 [|x2 [|x3 c]]]]; cbn [length] in Hne; try lia; vm_compute; reflexivity.
Qed.

Lemma send_data_word_round_trip_witness :
  is_bytes [1; 2; 3; 4; 5] /\ (4 mod CCWD8 = 0)%nat /\ (4 < length [1; 2; 3; 4; 5])%nat /\
  send_data_out (fst (send_data_word [1; 2; 3; 4; 5] 4))
                (snd (send_data_word [1; 2; 3; 4; 5] 4)) = Some [5].
Proof.
  assert (Hb : is_bytes [1; 2; 3; 4; 5]) by (apply is_bytesb_spec; vm_compute; reflexivity).
  split; [exact Hb|]. split; [reflexivity|]. split; [cbn; lia|].
  exact (send_data_word_round_trip _ 4 Hb eq_refl ltac:(cbn; lia)).
Defined.

Lemma sigma_bit (x a b k : Z) :
  0 <= x < 2 ^ 64 -> 0 <= k < 64 ->
  Z.testbit (Z.land (Z.lxor (Z.lxor x (rotr x a)) (rotr x b)) MASK64) k =
  xorb (xorb (Z.testbit x k) (Z.testbit x ((k + a) mod 64))) (Z.testbit x ((k + b) mod 64)).
Proof.
  intros Hx Hk. rewrite testbit_land_MASK64 by lia.
  replace (k <? 64) with true by (symmetry; apply Z.ltb_lt; lia). cbn [andb].
  rewrite !Z.lxor_spec, !rotr_bits by lia.
  replace (k <? 64) with true by (symmetry; apply Z.ltb_lt; lia). reflexivity.
Qed.

(** On five 64-bit words, bit [k] of each output word of
    [linear_diffusion_layer] is the XOR of bits [k], [k + a] and [k + b]
    (mod 64) of the input word, with the rotation amounts [(19, 28)],
    [(61, 39)], [(1, 6)], [(10, 17)] and [(7, 41)]. *)
Theorem linear_diffusion_layer_bits (S : state) :
  wf S -> forall k, 0 <= k < 64 ->
  let L := linear_diffusion_layer S in
  let sigma x a b := xorb (xorb (Z.testbit x k) (Z.testbit x ((k + a) mod 64)))
                          (Z.testbit x ((k + b) mod 64)) in
  Z.testbit (s0 L) k = sigma (s0 S) 19 28 /\
  Z.testbit (s1 L) k = sigma (s1 S) 61 39 /\
  Z.testbit (s2 L) k = sigma (s2 S) 1 6 /\
  Z.testbit (s3 L) k = sigma (s3 S) 10 17 /\
  Z.testbit (s4 L) k = sigma (s4 S) 7 41.
Proof.
  intros HS k Hk L sigma. destruct S as [x0 x1 x2 x3 x4].
  destruct HS as (H0 & H1 & H2 & H3 & H4); cbn [s0 s1 s2 s3 s4] in *.
  unfold L, sigma; cbn [linear_diffusion_layer s0 s1 s2 s3 s4].
  rewrite !sigma_bit by lia. repeat split.
Qed.

Lemma linear_diffusion_layer_bits_witness :
  wf (mkState 1 0 0 0 0) /\ Z.testbit (s0 (linear_diffusion_layer (mkState 1 0 0 0 0))) 0 = true.
Proof.
  assert (HS : wf (mkState 1 0 0 0 0)) by (unfold wf; cbn [s0 s1 s2 s3 s4]; lia).
  split; [exact HS|].
  destruct (linear_diffusion_layer_bits _ HS 0 ltac:(lia)) as [H _]. exact H.
Defined.
